(** * chotto: message drafts, feed scroll handling and list windowing

  A shallow embedding of
  - [src/helpers/useMessage.ts]: the outgoing-message draft composable,
  - the feed component's scroll handler and intersection observer
    (the code blocks of the feed optimisation notes),
  - the windowing engine, which the notes only declare
    ([useVirtualList]); it is modelled from the specification and its
    definitions say so in their doc comments.

  Numbers that the TypeScript code holds as [number] and only compares,
  adds or floors (pixel positions, heights, indices) are integers here. *)

From Stdlib Require Import ZArith String List Bool Lia.
From stdpp Require Import base option list gmap sets strings.

Local Open Scope Z_scope.
#[local] Set Warnings "-clear-no-such-hyp".

(* ===================================================================== *)
(** * 1. The draft composable ([useMessage.ts])                          *)
(* ===================================================================== *)

Module Drafts.

(** [interface UploadedFile] *)
Module UploadedFile.
Record t : Type := Build { url : string; name : string; size : Z; type : string }.
End UploadedFile.

(** [interface Reply] of [types/messages.ts]; [?] fields are options. *)
Module Reply.
Record t : Type := Build
    { messageId : string;
      type : string;
      text : option string;
      url : option string;
      filename : option string }.
End Reply.

(** [interface Message]: [file?] and [reply?] are [undefined] when [None]. *)
Record Message : Type := mkMessage
  { id : string;
    text : string;
    file : option UploadedFile.t;
    reply : option Reply.t;
    forceSend : bool }.

(** Objects live in a heap and are named by their address: the setters
    put a new object into a slot of the array while [setForceSendMessage]
    writes into the object that is already there. *)
Definition loc : Type := nat.

(** The module-level [const messages = ref<Message[]>([])]: [messages] is
    the array of object references, [heap] the objects allocated so far
    (an address is an index into it). There is one such store per
    process; every function below threads it. *)
Record Store : Type := mkStore
  { heap : list Message;
    messages : list loc }.

Definition emptyStore : Store := {| heap := []; messages := [] |}.

Definition deref (st : Store) (l : loc) : option Message := heap st !! l.

(** [messages.value.find(({id}) => id == outId)]: the first element whose
    [id] is [outId], as a reference. *)
Fixpoint findById (st : Store) (outId : string) (ms : list loc) : option loc :=
  match ms with
  | [] => None
  | l :: rest =>
      match deref st l with
      | Some m => if String.eqb (id m) outId then Some l else findById st outId rest
      | None => findById st outId rest
      end
  end.

(** [Array.prototype.indexOf]: the first index holding that very
    reference, [-1] when there is none. *)
Fixpoint indexOfFrom (i : Z) (l : loc) (ms : list loc) : Z :=
  match ms with
  | [] => -1
  | l' :: rest => if Nat.eqb l' l then i else indexOfFrom (i + 1) l rest
  end.

Definition indexOf (l : loc) (ms : list loc) : Z := indexOfFrom 0 l ms.

(** [messages.value[i]]: [undefined] ([None]) outside the array. *)
Definition at_index (ms : list loc) (i : Z) : option loc :=
  if i <? 0 then None else ms !! Z.to_nat i.

(** [useMessage(outId)]: returns the store after the call and the
    [index] that the returned closures capture. *)
Definition useMessage (outId : string) (st : Store) : Store * Z :=
  match findById st outId (messages st) with
  | Some foundMessage => (st, indexOf foundMessage (messages st))
  | None =>
      let fresh := length (heap st) in
      let st' :=
        {| heap := heap st ++ [ {| id := outId; text := ""; file := None;
                                   reply := None; forceSend := false |} ];
           messages := messages st ++ [fresh] |} in
      (st', Z.of_nat (length (messages st')) - 1)
  end.

(** [getMessage()]: the reference in the captured slot. *)
Definition getMessage (index : Z) (st : Store) : option loc :=
  at_index (messages st) index.

(** What a caller reads through [getMessage()]. *)
Definition draft (index : Z) (st : Store) : option Message :=
  l ← getMessage index st; deref st l.

(** [messages.value[index.value] = { ... }]: the object literal is built
    from [getMessage()] first (a [TypeError], here [None], when the slot
    is [undefined]), then stored as a new object in the slot. *)
Definition assignSlot (index : Z) (build : Message -> Message) (st : Store)
  : option Store :=
  m ← draft index st;
  Some {| heap := heap st ++ [build m];
          messages := <[Z.to_nat index := length (heap st)]> (messages st) |}.

Definition resetMessage (index : Z) : Store -> option Store :=
  assignSlot index (fun m =>
    {| id := id m; text := ""; file := None; reply := None; forceSend := false |}).

Definition setMessageText (index : Z) (text' : string) : Store -> option Store :=
  assignSlot index (fun m =>
    {| id := id m; text := text'; file := file m; reply := reply m;
       forceSend := false |}).

Definition setMessageFile (index : Z) (file' : UploadedFile.t) : Store -> option Store :=
  assignSlot index (fun m =>
    {| id := id m; text := text m; file := Some file'; reply := reply m;
       forceSend := false |}).

Definition resetMessageFile (index : Z) : Store -> option Store :=
  assignSlot index (fun m =>
    {| id := id m; text := text m; file := None; reply := reply m;
       forceSend := false |}).

Definition setReply (index : Z) (reply' : Reply.t) : Store -> option Store :=
  assignSlot index (fun m =>
    {| id := id m; text := text m; file := file m; reply := Some reply';
       forceSend := false |}).

Definition resetReply (index : Z) : Store -> option Store :=
  assignSlot index (fun m =>
    {| id := id m; text := text m; file := file m; reply := None;
       forceSend := false |}).

(** [messages.value[index.value].forceSend = val]: writes the field of the
    object in place; the slot keeps its reference. *)
Definition setForceSendMessage (index : Z) (val : bool) (st : Store) : option Store :=
  l ← getMessage index st;
  m ← deref st l;
  Some {| heap := <[l := {| id := id m; text := text m; file := file m;
                            reply := reply m; forceSend := val |}]> (heap st);
          messages := messages st |}.

(** A call made by some component of the process, through the closures of
    whichever handle it holds. *)
Inductive Call : Type :=
| CallUseMessage (outId : string)
| CallResetMessage (index : Z)
| CallSetMessageText (index : Z) (text' : string)
| CallSetMessageFile (index : Z) (file' : UploadedFile.t)
| CallResetMessageFile (index : Z)
| CallSetReply (index : Z) (reply' : Reply.t)
| CallResetReply (index : Z)
| CallSetForceSendMessage (index : Z) (val : bool).

Definition exec (c : Call) (st : Store) : option Store :=
  match c with
  | CallUseMessage outId => Some (fst (useMessage outId st))
  | CallResetMessage i => resetMessage i st
  | CallSetMessageText i t => setMessageText i t st
  | CallSetMessageFile i f => setMessageFile i f st
  | CallResetMessageFile i => resetMessageFile i st
  | CallSetReply i r => setReply i r st
  | CallResetReply i => resetReply i st
  | CallSetForceSendMessage i v => setForceSendMessage i v st
  end.

Fixpoint run (cs : list Call) (st : Store) : option Store :=
  match cs with
  | [] => Some st
  | c :: rest => st' ← exec c st; run rest st'
  end.

(** No slot holds a dangling reference. *)
Definition wf (st : Store) : Prop :=
  Forall (fun l => (l < length (heap st))%nat) (messages st).

(** The [id] that each slot shows, in array order. *)
Definition slotIds (st : Store) : list (option string) :=
  map (fun l => id <$> deref st l) (messages st).

(** Slot [k] is the first one whose draft shows [outId]. *)
Definition firstSlot (ids : list (option string)) (outId : string) (k : nat) : Prop :=
  ids !! k = Some (Some outId)
  /\ forall j : nat, (j < k)%nat -> ids !! j <> Some (Some outId).

(** The handle a call goes through: the [index] its closure captured
    ([None] for [useMessage] itself, which makes a handle). *)
Definition callIndex (c : Call) : option Z :=
  match c with
  | CallUseMessage _ => None
  | CallResetMessage i => Some i
  | CallSetMessageText i _ => Some i
  | CallSetMessageFile i _ => Some i
  | CallResetMessageFile i => Some i
  | CallSetReply i _ => Some i
  | CallResetReply i => Some i
  | CallSetForceSendMessage i _ => Some i
  end.

(** The calls that write [forceSend] in place, against those that assign a
    new object to the slot. *)
Definition writesInPlace (c : Call) : bool :=
  match c with
  | CallSetForceSendMessage _ _ => true
  | _ => false
  end.

(** What the process keeps true of the store: no dangling slot, and no two
    slots showing the same [id]. *)
Definition consistent (st : Store) : Prop :=
  wf st /\ NoDup (slotIds st).

End Drafts.

(* ===================================================================== *)
(** * 2. The feed component: scroll handler and intersection observer    *)
(* ===================================================================== *)

Module Feed.

(** The events the component emits in the two handlers. *)
Inductive Emit : Type :=
| messageVisible (messageId : string)   (* emit('messageVisible', { messageId }) *)
| loadMore                              (* emit('loadMore') *)
| loadMoreDown.                         (* emit('loadMoreDown') *)

(** What a handler does, in order: it emits, or it calls
    [emitVisibleMessages()], whose body the notes do not show. *)
Inductive Effect : Type :=
| Emitted (e : Emit)
| CallEmitVisibleMessages.

(** An element, as far as the observer reads it: its attributes. *)
Record Element : Type := mkElement { attributes : gmap string string }.

(** [el.getAttribute(name)]: [null] ([None]) when the attribute is absent. *)
Definition getAttribute (el : Element) (name : string) : option string :=
  attributes el !! name.

Record IntersectionObserverEntry : Type := mkEntry
  { isIntersecting : bool;
    target : Element }.

(** [if (messageId)]: [null] and the empty string are falsy. *)
Definition truthy (v : option string) : bool :=
  match v with
  | Some EmptyString => false
  | Some _ => true
  | None => false
  end.

(** The body of [entries.forEach((entry) => { ... })] for one entry. *)
Definition onEntry (entry : IntersectionObserverEntry) : list Emit :=
  if isIntersecting entry then
    let messageId := getAttribute (target entry) "data-message-id" in
    match messageId with
    | Some v => if truthy messageId then [messageVisible v] else []
    | None => []
    end
  else [].

(** The callback given to [new IntersectionObserver(...)]: the emissions
    of one invocation, in order. *)
Fixpoint observerCallback (entries : list IntersectionObserverEntry) : list Emit :=
  match entries with
  | [] => []
  | entry :: rest => onEntry entry ++ observerCallback rest
  end.

(** The three properties [handleScroll] reads from [feedContainer.value]. *)
Record Container : Type := mkContainer
  { scrollTop : Z;
    scrollHeight : Z;
    clientHeight : Z }.

(** [handleScroll]: [feedContainer] is [feedContainer.value] at the time
    of the event ([None] when unset), [scrollTopRef] the component's
    [scrollTop.value]. Returns the new [scrollTop.value] and the effects. *)
Definition handleScroll (feedContainer : option Container) (scrollTopRef : Z)
  : Z * list Effect :=
  match feedContainer with
  | None => (scrollTopRef, [])
  | Some c =>
      let newScrollTop := scrollTop c in
      (newScrollTop,
       (if newScrollTop <? 300 then [Emitted loadMore] else [])
         ++ (if scrollHeight c - newScrollTop - clientHeight c <? 300
             then [Emitted loadMoreDown] else [])
         ++ [CallEmitVisibleMessages])
  end.

(** A sequence of scroll events, each with the container as it is then. *)
Fixpoint scrollTrace (events : list (option Container)) (scrollTopRef : Z)
  : list Effect :=
  match events with
  | [] => []
  | ev :: rest =>
      let '(ref', effects) := handleScroll ev scrollTopRef in
      effects ++ scrollTrace rest ref'
  end.

Definition isLoadMore (e : Effect) : bool :=
  match e with Emitted loadMore => true | _ => false end.

(** How many times ['loadMore'] was emitted. *)
Definition loadMoreCount (effects : list Effect) : nat :=
  length (filter (fun e => isLoadMore e = true) effects).

(** An event is inside the top zone when the container is there and its
    distance from the top edge is below the threshold. *)
Definition inTopZone (threshold : Z) (ev : option Container) : bool :=
  match ev with
  | Some c => scrollTop c <? threshold
  | None => false
  end.

Definition zoneEvents (threshold : Z) (events : list (option Container)) : nat :=
  length (filter (fun ev => inTopZone threshold ev = true) events).

(** Crossings into the top zone: events inside the zone whose predecessor
    was outside it ([inside] tells where the previous event was). *)
Fixpoint topCrossings (threshold : Z) (inside : bool)
    (events : list (option Container)) : nat :=
  match events with
  | [] => 0%nat
  | ev :: rest =>
      let now := inTopZone threshold ev in
      ((if now && negb inside then 1 else 0)
       + topCrossings threshold now rest)%nat
  end.

(** The identifiers one callback invocation reports as newly
    intersecting: those of the intersecting entries that carry one. *)
Definition intersectingIds (entries : list IntersectionObserverEntry)
  : list string :=
  omap (fun entry =>
          if isIntersecting entry then
            match getAttribute (target entry) "data-message-id" with
            | Some EmptyString => None
            | other => other
            end
          else None) entries.

Definition isLoadMoreDown (e : Effect) : bool :=
  match e with Emitted loadMoreDown => true | _ => false end.

(** How many times ['loadMoreDown'] was emitted. *)
Definition loadMoreDownCount (effects : list Effect) : nat :=
  length (filter (fun e => isLoadMoreDown e = true) effects).

Definition isCallEmitVisibleMessages (e : Effect) : bool :=
  match e with CallEmitVisibleMessages => true | _ => false end.

(** How many times [emitVisibleMessages()] was called. *)
Definition emitVisibleMessagesCalls (effects : list Effect) : nat :=
  length (filter (fun e => isCallEmitVisibleMessages e = true) effects).

(** An event is inside the bottom zone when the container is there and
    its distance from the bottom edge is below the threshold. *)
Definition inBottomZone (threshold : Z) (ev : option Container) : bool :=
  match ev with
  | Some c => scrollHeight c - scrollTop c - clientHeight c <? threshold
  | None => false
  end.

(** [scrollTop.value] after a sequence of scroll events. *)
Fixpoint scrollTopAfter (events : list (option Container)) (scrollTopRef : Z) : Z :=
  match events with
  | [] => scrollTopRef
  | ev :: rest => scrollTopAfter rest (fst (handleScroll ev scrollTopRef))
  end.

End Feed.


(* ===================================================================== *)
(** * 3. The windowing engine ([computeWindow])                          *)
(* ===================================================================== *)

(** The notes declare [useVirtualList] and leave its body out (a one-line
    placeholder comment); the template only shows what it returns
    ([visibleItems] with [item.id], [item.offset], [item.data], and
    [totalHeight]). The engine below follows section 4.1 of the
    specification. *)

Module Windowing.

(** Modelled from the spec: a stable identifier, a string or an integer
    (section 3; the notes only show [getId] returning [string | number]). *)
Inductive Identifier : Type :=
| IdString (s : string)
| IdNumber (n : Z).

(** Modelled from the spec: an item of section 3, the identifier and a
    payload the engine never inspects (the item type of [useVirtualList] is
    missing). *)
Record Item (T : Type) : Type := mkItem
  { id : Identifier;
    payload : T }.
Arguments mkItem {T} _ _.
Arguments id {T} _.
Arguments payload {T} _.

(** Modelled from the spec: the height model of section 3 (the options
    type of [useVirtualList] is missing): one fixed height for all items,
    or a lookup by identifier with a fallback height for identifiers it
    omits. *)
Inductive HeightModel : Type :=
| FixedHeight (itemHeight : Z)
| PerItemHeight (lookup : Identifier -> option Z) (fallback : Z).

(** Modelled from the spec: the height the model gives an item. *)
Definition heightOf {T : Type} (hm : HeightModel) (it : Item T) : Z :=
  match hm with
  | FixedHeight h => h
  | PerItemHeight lookup fallback => default fallback (lookup (id it))
  end.

(** Modelled from the spec: a visible item of section 3 (the result type
    of [useVirtualList] is missing): the item with its index, its absolute
    offset and its height. *)
Record VisibleItem (T : Type) : Type := mkVisibleItem
  { index : Z;
    item : Item T;
    offset : Z;
    height : Z }.
Arguments mkVisibleItem {T} _ _ _ _.
Arguments index {T} _.
Arguments item {T} _.
Arguments offset {T} _.
Arguments height {T} _.

(** Modelled from the spec: the window of section 3, the range
    [[startIndex, endIndex)]. *)
Record Window : Type := mkWindow
  { startIndex : Z;
    endIndex : Z }.

(** Modelled from the spec: what [computeWindow] returns (section 4.1). *)
Record Result (T : Type) : Type := mkResult
  { visibleItems : list (VisibleItem T);
    totalExtent : Z;
    window : Window }.
Arguments mkResult {T} _ _ _.
Arguments visibleItems {T} _.
Arguments totalExtent {T} _.
Arguments window {T} _.

(** The sum of a list of heights. *)
Definition sumHeights (hs : list Z) : Z := foldr Z.add 0 hs.

(** Modelled from the spec: the cumulative-offset table of step 1 (the
    body of [useVirtualList] is missing). Entry [i] is the offset of item
    [i], the sum of the heights before it; the last entry, one past the
    last item, is the total. *)
Fixpoint cumulativeFrom (acc : Z) (hs : list Z) : list Z :=
  match hs with
  | [] => [acc]
  | h :: rest => acc :: cumulativeFrom (acc + h) rest
  end.

(** Modelled from the spec: the table for a list of heights, and the
    offset it holds at an index. *)
Definition cumulativeOffsets (hs : list Z) : list Z := cumulativeFrom 0 hs.

Definition offsetAt (table : list Z) (i : nat) : Z := nth i table 0.

(** Modelled from the spec: the binary search of step 2 (the body of
    [useVirtualList] is missing), for the first index in [[lo, hi)] at
    which [p] holds, [hi] when there is none. Each round halves the
    range, so [hi - lo] rounds of [fuel] always suffice. *)
Fixpoint searchFirst (fuel : nat) (p : nat -> bool) (lo hi : nat) : nat :=
  match fuel with
  | O => lo
  | S fuel' =>
      if (lo <? hi)%nat then
        let mid := ((lo + hi) / 2)%nat in
        if p mid then searchFirst fuel' p lo mid
        else searchFirst fuel' p (S mid) hi
      else lo
  end.

(** Modelled from the spec: the search over a table of [n] items. *)
Definition firstIndex (n : nat) (p : nat -> bool) : nat := searchFirst n p 0 n.

(** Modelled from the spec: step 3 (the body of [useVirtualList] is
    missing): start expanded by the overscan and floored at 0, end
    expanded and capped at the length. The range is clamped to
    [[0, length)] (section 3), so it starts at an item: at the last one
    when the scroll offset lies beyond every item. *)
Definition expand (n startVisible endVisible overscan : Z) : Window :=
  {| startIndex := Z.max 0 (Z.min startVisible (n - 1) - overscan);
     endIndex := Z.min n (endVisible + overscan) |}.

(** Modelled from the spec: step 4 (the body of [useVirtualList] is
    missing): one visible item per index of the window, with its offset
    and height. *)
Definition materialize {T : Type} (items : list (Item T))
    (offsetOf : nat -> Z) (heightOfItem : Item T -> Z) (w : Window)
  : list (VisibleItem T) :=
  let start := Z.to_nat (startIndex w) in
  let count := Z.to_nat (endIndex w - startIndex w) in
  imap (fun k it =>
          {| index := Z.of_nat (start + k);
             item := it;
             offset := offsetOf (start + k)%nat;
             height := heightOfItem it |})
       (take count (drop start items)).

(** Modelled from the spec: the generic path of section 4.1 (the body of
    [useVirtualList] is missing). A negative scroll offset and a negative
    overscan are clamped to 0; a viewport height that is not positive
    gives a window of size 0. The visible range starts at the first item
    whose offset plus height exceeds the scroll offset and ends before the
    first item whose offset has reached the bottom edge
    [scrollOffset + viewportHeight]: such an item begins below the last
    visible position, and the scenario of section 8 counts it out (ten
    items of height 80 in a viewport of 800 at offset 4000). *)
Definition genericPath {T : Type} (items : list (Item T))
    (heightOfItem : Item T -> Z) (viewportHeight scrollOffset overscan : Z)
  : Result T :=
  let n := length items in
  let hs := map heightOfItem items in
  let table := cumulativeOffsets hs in
  let total := List.last table 0 in
  let s := Z.max 0 scrollOffset in
  let ov := Z.max 0 overscan in
  if viewportHeight <=? 0 then
    {| visibleItems := []; totalExtent := total;
       window := {| startIndex := 0; endIndex := 0 |} |}
  else
    let startVisible :=
      firstIndex n (fun i => s <? offsetAt table i + nth i hs 0) in
    let endVisible :=
      firstIndex n (fun i => s + viewportHeight <=? offsetAt table i) in
    let w := expand (Z.of_nat n) (Z.of_nat startVisible) (Z.of_nat endVisible) ov in
    {| visibleItems := materialize items (offsetAt table) heightOfItem w;
       totalExtent := total;
       window := w |}.

(** Modelled from the spec: the formula of the fast path,
    [index = floor (position / itemHeight)]: the item under a position. *)
Definition indexAt (itemHeight position : Z) : Z := position / itemHeight.

(** Modelled from the spec: the fixed-height fast path of section 4.1
    (the body of [useVirtualList] is missing). The cumulative table is
    skipped and the range comes from the formula alone: it starts at the
    item under the scroll offset and ends after the item under the last
    visible position, [scrollOffset + viewportHeight - 1]. The formula
    divides by [itemHeight], so the arithmetic is used for a positive
    height; a height of 0 is legal (section 3) and leaves nothing to
    divide by, and the engine then takes the generic path, whose results
    the fast path has to give in any case. *)
Definition fixedHeightPath {T : Type} (items : list (Item T))
    (itemHeight viewportHeight scrollOffset overscan : Z) : Result T :=
  if itemHeight <=? 0 then
    genericPath items (fun _ => itemHeight) viewportHeight scrollOffset overscan
  else
    let n := Z.of_nat (length items) in
    let total := n * itemHeight in
    let s := Z.max 0 scrollOffset in
    let ov := Z.max 0 overscan in
    if viewportHeight <=? 0 then
      {| visibleItems := []; totalExtent := total;
         window := {| startIndex := 0; endIndex := 0 |} |}
    else
      let startVisible := indexAt itemHeight s in
      let endVisible := indexAt itemHeight (s + viewportHeight - 1) + 1 in
      let w := expand n startVisible endVisible ov in
      {| visibleItems :=
           materialize items (fun i => Z.of_nat i * itemHeight)
                       (fun _ => itemHeight) w;
         totalExtent := total;
         window := w |}.

(** Modelled from the spec: the contract of section 4.1,
    [computeWindow(items, heightModel, viewportHeight, scrollOffset,
    overscan)] (the body of [useVirtualList] is missing): the fast path
    for a uniform fixed height, the generic path otherwise. *)
Definition computeWindow {T : Type} (items : list (Item T)) (hm : HeightModel)
    (viewportHeight scrollOffset overscan : Z) : Result T :=
  match hm with
  | FixedHeight h => fixedHeightPath items h viewportHeight scrollOffset overscan
  | PerItemHeight _ _ =>
      genericPath items (heightOf hm) viewportHeight scrollOffset overscan
  end.

(** ** The engine with its failures *)

(** Modelled from the spec: what can go wrong inside the engine of
    section 4.1 (the body of [useVirtualList] is missing): a read outside
    the cumulative table, the heights or the item sequence, and a division
    by zero. *)
Inductive Failure : Type :=
| IndexOutOfRange
| DivisionByZero.

(** A computation that returns or throws. *)
Inductive Outcome (A : Type) : Type :=
| Returned (a : A)
| Thrown (e : Failure).
Arguments Returned {A} _.
Arguments Thrown {A} _.

#[global] Instance Outcome_ret : MRet Outcome := fun A a => Returned a.











(** Heights are non-negative (section 3 of the specification): the fixed
    height, or the height the lookup gives each item. *)
Definition heightsNonNegative {T : Type} (hm : HeightModel) (items : list (Item T))
  : Prop :=
  match hm with
  | FixedHeight h => 0 <= h
  | PerItemHeight _ _ => Forall (fun it => 0 <= heightOf hm it) items
  end.

(** [n] items with identifiers [0 .. n-1] and no payload. *)
Definition numbered (n : nat) : list (Item unit) :=
  map (fun i => mkItem (IdNumber (Z.of_nat i)) tt) (seq 0 n).

End Windowing.


(* ===================================================================== *)
(** * 4. Facts about the draft composable                                *)
(* ===================================================================== *)

Module DraftsFacts.

Import Drafts.

Lemma at_index_Some (ms : list loc) (i : Z) (l : loc) :
  at_index ms i = Some l -> 0 <= i /\ ms !! Z.to_nat i = Some l.
Proof.
  unfold at_index. destruct (Z.ltb_spec i 0); [discriminate|]. auto.
Qed.

Lemma at_index_nat (ms : list loc) (k : nat) :
  at_index ms (Z.of_nat k) = ms !! k.
Proof.
  unfold at_index. destruct (Z.ltb_spec (Z.of_nat k) 0); [lia|].
  now rewrite Nat2Z.id.
Qed.

Lemma draft_Some (index : Z) (st : Store) (m : Message) :
  draft index st = Some m ->
  exists l, 0 <= index /\ messages st !! Z.to_nat index = Some l
            /\ heap st !! l = Some m.
Proof.
  unfold draft, getMessage. intros H.
  destruct (at_index (messages st) index) as [l|] eqn:E; [|discriminate].
  apply at_index_Some in E as [? ?]. exists l. auto.
Qed.

Lemma draft_intro (index : Z) (st : Store) (l : loc) (m : Message) :
  0 <= index -> messages st !! Z.to_nat index = Some l -> heap st !! l = Some m ->
  draft index st = Some m.
Proof.
  intros Hi Hl Hm. unfold draft, getMessage, at_index.
  destruct (Z.ltb_spec index 0); [lia|]. rewrite Hl. exact Hm.
Qed.

(** Reading a slot right after [assignSlot] wrote it. *)
Lemma assignSlot_same (index : Z) (build : Message -> Message) (st : Store) (m : Message) :
  draft index st = Some m ->
  exists st', assignSlot index build st = Some st'
              /\ draft index st' = Some (build m).
Proof.
  intros Hd. unfold assignSlot. rewrite Hd. simpl.
  eexists; split; [reflexivity|].
  apply draft_Some in Hd as (l & Hi & Hl & Hm).
  eapply draft_intro with (l := length (heap st)); simpl; auto.
  - apply list_lookup_insert_eq. eapply lookup_lt_Some; eauto.
  - rewrite lookup_app_r by lia. now rewrite Nat.sub_diag.
Qed.

(** [assignSlot] through one handle as seen through another. *)
Lemma assignSlot_draft (i index : Z) (build : Message -> Message) (st st' : Store)
    (m : Message) :
  assignSlot i build st = Some st' ->
  draft index st = Some m ->
  draft index st' = Some m \/ draft index st' = Some (build m).
Proof.
  intros Ha Hd.
  destruct (decide (Z.to_nat i = Z.to_nat index)) as [E|NE].
  - right. unfold assignSlot in Ha.
    destruct (draft i st) as [mi|] eqn:Hi; [|discriminate].
    assert (mi = m) as ->.
    { apply draft_Some in Hi as (l1 & ? & Hl1 & Hm1).
      apply draft_Some in Hd as (l2 & ? & Hl2 & Hm2).
      rewrite E in Hl1. congruence. }
    assert (i = index) as -> .
    { apply draft_Some in Hi as (? & ? & _). apply draft_Some in Hd as (? & ? & _). lia. }
    destruct (assignSlot_same index build st m Hd) as (st2 & H2 & H3).
    unfold assignSlot in H2. rewrite Hd in H2. simpl in *. congruence.
  - left. unfold assignSlot in Ha.
    destruct (draft i st) as [mi|]; [|discriminate]. simpl in Ha.
    injection Ha as <-.
    apply draft_Some in Hd as (l & ? & Hl & Hm).
    eapply draft_intro with (l := l); simpl; auto.
    + rewrite list_lookup_insert_ne; auto.
    + rewrite lookup_app_l; auto. eapply lookup_lt_Some; eauto.
Qed.

Lemma setForceSendMessage_same (index : Z) (val : bool) (st : Store) (m : Message) :
  draft index st = Some m ->
  exists st', setForceSendMessage index val st = Some st'
              /\ messages st' = messages st
              /\ draft index st' =
                   Some {| id := id m; text := text m; file := file m;
                           reply := reply m; forceSend := val |}.
Proof.
  intros Hd. pose proof Hd as Hd'.
  apply draft_Some in Hd as (l & Hi & Hl & Hm).
  unfold setForceSendMessage, getMessage, at_index.
  destruct (Z.ltb_spec index 0); [lia|]. rewrite Hl. simpl.
  unfold deref. rewrite Hm. simpl.
  eexists; split; [reflexivity|]. split; [reflexivity|].
  eapply draft_intro with (l := l); simpl; auto.
  apply list_lookup_insert_eq. eapply lookup_lt_Some; eauto.
Qed.

Lemma setForceSendMessage_draft (i index : Z) (val : bool) (st st' : Store)
    (m : Message) :
  setForceSendMessage i val st = Some st' ->
  draft index st = Some m ->
  draft index st' = Some m
  \/ draft index st' = Some {| id := id m; text := text m; file := file m;
                               reply := reply m; forceSend := val |}.
Proof.
  intros Hs Hd. unfold setForceSendMessage in Hs.
  destruct (getMessage i st) as [li|] eqn:Hli; [|discriminate]. simpl in Hs.
  destruct (deref st li) as [mi|] eqn:Hmi; [|discriminate]. simpl in Hs.
  injection Hs as <-.
  apply draft_Some in Hd as (l & ? & Hl & Hm).
  destruct (decide (li = l)) as [->|NE].
  - right. unfold deref in Hmi. assert (mi = m) as -> by congruence.
    eapply draft_intro with (l := l); simpl; auto.
    apply list_lookup_insert_eq. eapply lookup_lt_Some; eauto.
  - left. eapply draft_intro with (l := l); simpl; auto.
    rewrite list_lookup_insert_ne; auto.
Qed.

(** [useMessage] never touches a draft that is already there. *)
Lemma useMessage_draft (outId : string) (index : Z) (st : Store) (m : Message) :
  draft index st = Some m -> draft index (fst (useMessage outId st)) = Some m.
Proof.
  intros Hd. unfold useMessage.
  destruct (findById st outId (messages st)); simpl; [exact Hd|].
  apply draft_Some in Hd as (l & ? & Hl & Hm).
  eapply draft_intro with (l := l); simpl; auto.
  - rewrite lookup_app_l; auto. eapply lookup_lt_Some; eauto.
  - rewrite lookup_app_l; auto. eapply lookup_lt_Some; eauto.
Qed.

(** What [find] returns and where [indexOf] then finds it: the first slot
    whose draft has that [id]. *)
Lemma findById_indexOf (st : Store) (outId : string) (ms : list loc) (i : Z) (l : loc) :
  findById st outId ms = Some l ->
  exists (k : nat) (m : Message),
    ms !! k = Some l /\ deref st l = Some m /\ id m = outId
    /\ indexOfFrom i l ms = i + Z.of_nat k
    /\ forall (j : nat) l', (j < k)%nat -> ms !! j = Some l' ->
         id <$> deref st l' <> Some outId.
Proof.
  revert i. induction ms as [|l0 rest IH]; intros i Hf; [discriminate|].
  simpl in Hf.
  destruct (deref st l0) as [m0|] eqn:E0.
  - destruct (String.eqb_spec (id m0) outId) as [Heq|Hne].
    + injection Hf as <-. exists 0%nat, m0. simpl.
      rewrite Nat.eqb_refl. repeat split; auto; [lia|]. intros; lia.
    + destruct (IH (i + 1) Hf) as (k & m & Hk & Hm & Hid & Hidx & Hfirst).
      exists (S k), m. simpl. repeat split; auto.
      * destruct (Nat.eqb_spec l0 l) as [->|_]; [congruence|]. lia.
      * intros [|j] l' Hj Hl'; simpl in Hl'.
        -- injection Hl' as <-. rewrite E0. simpl. congruence.
        -- apply (Hfirst j); auto; lia.
  - destruct (IH (i + 1) Hf) as (k & m & Hk & Hm & Hid & Hidx & Hfirst).
    exists (S k), m. simpl. repeat split; auto.
    * destruct (Nat.eqb_spec l0 l) as [->|_]; [congruence|]. lia.
    * intros [|j] l' Hj Hl'; simpl in Hl'.
      -- injection Hl' as <-. rewrite E0. simpl. congruence.
      -- apply (Hfirst j); auto; lia.
Qed.

Lemma findById_None (st : Store) (outId : string) (ms : list loc) :
  findById st outId ms = None <->
  forall l, l ∈ ms -> id <$> deref st l <> Some outId.
Proof.
  induction ms as [|l0 rest IH]; simpl.
  - split; auto. intros _ l Hl. inversion Hl.
  - destruct (deref st l0) as [m0|] eqn:E0.
    + destruct (String.eqb_spec (id m0) outId) as [Heq|Hne].
      * split; [discriminate|]. intros H. exfalso.
        apply (H l0); [left|]. rewrite E0. simpl. congruence.
      * rewrite IH. split.
        -- intros H l Hl. apply elem_of_cons in Hl as [->|Hl]; auto.
           rewrite E0. simpl. congruence.
        -- intros H l Hl. apply H. now right.
    + rewrite IH. split.
      * intros H l Hl. apply elem_of_cons in Hl as [->|Hl]; auto.
        rewrite E0. discriminate.
      * intros H l Hl. apply H. now right.
Qed.

Lemma slotIds_lookup (st : Store) (k : nat) :
  slotIds st !! k = (fun l => id <$> deref st l) <$> (messages st !! k).
Proof. unfold slotIds. apply list_lookup_fmap. Qed.

Lemma firstSlot_app (ids extra : list (option string)) (outId : string) (k : nat) :
  firstSlot ids outId k -> firstSlot (ids ++ extra) outId k.
Proof.
  intros [Hk Hfirst]. pose proof (lookup_lt_Some _ _ _ Hk) as Hlt. split.
  - rewrite lookup_app_l; auto.
  - intros j Hj. rewrite lookup_app_l by lia. auto.
Qed.

(** A call whose slot is the first with [outId] finds that slot again and
    changes nothing. *)
Lemma useMessage_found (outId : string) (st : Store) (k : nat) :
  firstSlot (slotIds st) outId k -> useMessage outId st = (st, Z.of_nat k).
Proof.
  intros [Hk Hfirst]. unfold useMessage.
  destruct (findById st outId (messages st)) as [l|] eqn:Hf.
  - destruct (findById_indexOf st outId (messages st) 0 l Hf)
      as (k' & m & Hk' & Hm & Hid & Hidx & Hfirst').
    unfold indexOf. rewrite Hidx. f_equal.
    assert (k' = k); [|lia].
    destruct (Nat.lt_total k' k) as [Hlt|[Heq|Hgt]]; auto; exfalso.
    + apply (Hfirst k' Hlt). rewrite slotIds_lookup, Hk'. simpl.
      rewrite Hm. simpl. congruence.
    + rewrite slotIds_lookup in Hk.
      destruct (messages st !! k) as [l'|] eqn:El; [|discriminate].
      simpl in Hk. injection Hk as Hk. apply (Hfirst' k l' Hgt El Hk).
  - exfalso. rewrite findById_None in Hf.
    rewrite slotIds_lookup in Hk.
    destruct (messages st !! k) as [l'|] eqn:El; [|discriminate].
    simpl in Hk. injection Hk as Hk.
    apply (Hf l'); auto. eapply list_elem_of_lookup_2; eauto.
Qed.

Lemma slotIds_heap_app (st : Store) (extraHeap : list Message) (ms : list loc) :
  Forall (fun l => (l < length (heap st))%nat) ms ->
  map (fun l => id <$> (heap st ++ extraHeap) !! l) ms
  = map (fun l => id <$> heap st !! l) ms.
Proof.
  induction 1 as [|l rest Hl _ IH]; simpl; [reflexivity|].
  rewrite IH, lookup_app_l by exact Hl. reflexivity.
Qed.

(** The call itself: its slot is the first with [outId], and the array
    only grows at the end. *)
Lemma useMessage_firstSlot (outId : string) (st : Store) :
  wf st ->
  exists (k : nat) (extra : list (option string)),
    snd (useMessage outId st) = Z.of_nat k
    /\ firstSlot (slotIds (fst (useMessage outId st))) outId k
    /\ wf (fst (useMessage outId st))
    /\ slotIds (fst (useMessage outId st)) = slotIds st ++ extra.
Proof.
  intros Hwf. unfold useMessage.
  destruct (findById st outId (messages st)) as [l|] eqn:Hf; simpl.
  - destruct (findById_indexOf st outId (messages st) 0 l Hf)
      as (k & m & Hk & Hm & Hid & Hidx & Hfirst).
    exists k, []. unfold indexOf. rewrite Hidx, app_nil_r.
    repeat split; auto.
    + rewrite slotIds_lookup, Hk. simpl. rewrite Hm. simpl. congruence.
    + intros j Hj. rewrite slotIds_lookup.
      destruct (messages st !! j) as [l'|] eqn:El; [|discriminate].
      simpl. intros H. injection H as H. apply (Hfirst j l' Hj El H).
  - exists (length (messages st)), [Some outId].
    assert (Hids : slotIds
                     {| heap := heap st ++ [ {| id := outId; text := ""; file := None;
                                                reply := None; forceSend := false |} ];
                        messages := messages st ++ [length (heap st)] |}
                   = slotIds st ++ [Some outId]).
    { unfold slotIds, deref. simpl. rewrite map_app. simpl.
      rewrite (slotIds_heap_app st) by exact Hwf.
      rewrite lookup_app_r by lia. now rewrite Nat.sub_diag. }
    rewrite Hids. repeat split.
    + rewrite length_app. simpl. lia.
    + rewrite lookup_app_r by (unfold slotIds; rewrite length_map; lia).
      unfold slotIds. rewrite length_map, Nat.sub_diag. reflexivity.
    + intros j Hj. rewrite lookup_app_l by (unfold slotIds; rewrite length_map; lia).
      rewrite slotIds_lookup.
      destruct (messages st !! j) as [l'|] eqn:El; [|discriminate].
      simpl. intros H. injection H as H.
      rewrite findById_None in Hf. apply (Hf l'); auto.
      eapply list_elem_of_lookup_2; eauto.
    + unfold wf. simpl. apply Forall_app. split.
      * eapply Forall_impl; [exact Hwf|]. simpl. intros. rewrite length_app. simpl. lia.
      * constructor; [|constructor]. rewrite length_app. simpl. lia.
Qed.

(** A setter keeps the [id] of its slot, hence every slot's [id]. *)
Lemma assignSlot_slotIds (i : Z) (build : Message -> Message) (st st' : Store) :
  (forall m, id (build m) = id m) ->
  wf st -> assignSlot i build st = Some st' ->
  wf st' /\ slotIds st' = slotIds st.
Proof.
  intros Hid Hwf Ha. unfold assignSlot in Ha.
  destruct (draft i st) as [m|] eqn:Hd; [|discriminate]. simpl in Ha.
  injection Ha as <-.
  apply draft_Some in Hd as (l & Hi & Hl & Hm). split.
  - unfold wf. simpl. apply Forall_insert.
    + eapply Forall_impl; [exact Hwf|]. simpl. intros. rewrite length_app. simpl. lia.
    + rewrite length_app. simpl. lia.
  - unfold slotIds, deref. simpl.
    change (map ?f ?l) with (f <$> l).
    rewrite list_fmap_insert.
    change (?f <$> ?l) with (map f l) at 2.
    rewrite (slotIds_heap_app st) by exact Hwf.
    apply list_insert_id.
    rewrite lookup_app_r by lia. rewrite Nat.sub_diag. simpl.
    change (map ?f ?l) with (f <$> l).
    rewrite list_lookup_fmap, Hl. simpl. rewrite Hm. simpl. now rewrite Hid.
Qed.

Lemma setForceSendMessage_slotIds (i : Z) (val : bool) (st st' : Store) :
  wf st -> setForceSendMessage i val st = Some st' ->
  wf st' /\ slotIds st' = slotIds st.
Proof.
  intros Hwf Hs. unfold setForceSendMessage in Hs.
  destruct (getMessage i st) as [l|]; [|discriminate]. simpl in Hs.
  destruct (deref st l) as [m|] eqn:Hm; [|discriminate]. simpl in Hs.
  injection Hs as <-. split.
  - unfold wf. simpl. rewrite length_insert. exact Hwf.
  - unfold slotIds, deref. simpl. apply map_ext. intros l0.
    destruct (decide (l = l0)) as [<-|NE].
    + unfold deref in Hm. rewrite Hm.
      rewrite list_lookup_insert_eq by (eapply lookup_lt_Some; eauto). reflexivity.
    + rewrite list_lookup_insert_ne; auto.
Qed.

Lemma exec_slotIds (c : Call) (st st' : Store) :
  wf st -> exec c st = Some st' ->
  wf st' /\ exists extra, slotIds st' = slotIds st ++ extra.
Proof.
  intros Hwf He.
  destruct c; simpl in He;
    try (unfold resetMessage, setMessageText, setMessageFile, resetMessageFile,
           setReply, resetReply in He;
         apply assignSlot_slotIds in He as [? ->]; auto;
         split; auto; exists []; now rewrite app_nil_r).
  - injection He as <-.
    destruct (useMessage_firstSlot outId st Hwf) as (k & extra & _ & _ & ? & ?).
    split; eauto.
  - apply setForceSendMessage_slotIds in He as [? ->]; auto.
    split; auto. exists []. now rewrite app_nil_r.
Qed.

Lemma run_slotIds (cs : list Call) (st st' : Store) :
  wf st -> run cs st = Some st' ->
  wf st' /\ exists extra, slotIds st' = slotIds st ++ extra.
Proof.
  revert st. induction cs as [|c rest IH]; intros st Hwf Hr; simpl in Hr.
  - injection Hr as <-. split; auto. exists []. now rewrite app_nil_r.
  - destruct (exec c st) as [st1|] eqn:He; [|discriminate]. simpl in Hr.
    destruct (exec_slotIds c st st1 Hwf He) as (Hwf1 & e1 & H1).
    destruct (IH st1 Hwf1 Hr) as (Hwf' & e2 & H2).
    split; auto. exists (e1 ++ e2). rewrite H2, H1. now rewrite app_assoc.
Qed.

(** Every store the process can be in is well formed. *)
Lemma reachable_wf (cs : list Call) (st : Store) :
  run cs emptyStore = Some st -> wf st.
Proof.
  intros Hr. apply (run_slotIds cs emptyStore st); auto. constructor.
Qed.

Lemma firstSlot_draft (st : Store) (outId : string) (k : nat) :
  firstSlot (slotIds st) outId k ->
  exists l m, getMessage (Z.of_nat k) st = Some l /\ deref st l = Some m
              /\ id m = outId.
Proof.
  intros [Hk _]. rewrite slotIds_lookup in Hk.
  destruct (messages st !! k) as [l|] eqn:El; [|discriminate]. simpl in Hk.
  destruct (deref st l) as [m|] eqn:Em; [|discriminate]. simpl in Hk.
  exists l, m. unfold getMessage. rewrite at_index_nat. repeat split; auto.
  congruence.
Qed.

(** Only [setForceSendMessage(true)] turns [forceSend] on. *)
Lemma exec_forceSend (c : Call) (index : Z) (st st' : Store) (m m' : Message) :
  draft index st = Some m -> exec c st = Some st' -> draft index st' = Some m' ->
  forceSend m = false -> forceSend m' = true ->
  exists i, c = CallSetForceSendMessage i true.
Proof.
  intros Hd He Hd' Hoff Hon.
  destruct c; simpl in He;
    try (unfold resetMessage, setMessageText, setMessageFile, resetMessageFile,
           setReply, resetReply in He;
         destruct (assignSlot_draft _ index _ st st' m He Hd) as [H|H];
         rewrite H in Hd'; injection Hd' as <-; simpl in *; congruence).
  - injection He as <-. rewrite (useMessage_draft outId index st m Hd) in Hd'.
    congruence.
  - destruct (setForceSendMessage_draft _ index _ st st' m He Hd) as [H|H];
      rewrite H in Hd'; injection Hd' as <-; simpl in *; [congruence|].
    subst val. eauto.
Qed.

(** ** A session *)

(** Two handles on one conversation: the second call finds the slot of the
    first; a text typed through one handle and a forced send through the
    other meet in the same draft. The setter put a new object (address 1)
    into the slot, the forced send wrote into that object. *)
Example session_shares_draft :
  let '(st1, h1) := useMessage "alice" emptyStore in
  let '(st2, h2) := useMessage "alice" st1 in
  h1 = h2 /\ st2 = st1
  /\ (st3 ← setMessageText h1 "hello" st2;
      st4 ← setForceSendMessage h2 true st3;
      m ← draft h1 st4;
      Some (getMessage h1 st3, getMessage h2 st4, m))
     = Some (Some 1%nat, Some 1%nat,
             {| id := "alice"; text := "hello"; file := None; reply := None;
                forceSend := true |}).
Proof. vm_compute. auto. Qed.

(** A closure whose slot does not exist fails as [getMessage().id] does. *)
Example setter_on_missing_slot : setMessageText 3 "x" emptyStore = None.
Proof. reflexivity. Qed.

(** Closes a goal about a setter by the lemma on [assignSlot]. *)
Ltac by_assignSlot Hd :=
  match goal with
  | |- exists st', assignSlot ?i ?b ?st = Some st' /\ _ =>
      exact (assignSlot_same i b st _ Hd)
  end.

(** ** The claims *)

(** C9. After [useMessage(outId)], [getMessage()] returns a draft whose
    [id] is [outId]. When no draft had that [id], a new one with empty
    text, no file, no reply and [forceSend = false] is appended to the
    module-level list; when one had it, the store is left as it was. The
    list is shared: after any calls by anyone in the process, a further
    [useMessage(outId)] leaves the store as it is and captures the same
    slot, so both handles read and write the same draft object. *)
Theorem useMessage_shared_draft (outId : string) (st : Store) :
  wf st ->
  let st1 := fst (useMessage outId st) in
  let index := snd (useMessage outId st) in
  (exists l m, getMessage index st1 = Some l /\ deref st1 l = Some m
               /\ id m = outId)
  /\ ((forall l, l ∈ messages st -> id <$> deref st l <> Some outId) ->
      messages st1 = messages st ++ [length (heap st)]
      /\ heap st1 = heap st ++ [ {| id := outId; text := ""; file := None;
                                    reply := None; forceSend := false |} ]
      /\ draft index st1 = Some {| id := outId; text := ""; file := None;
                                   reply := None; forceSend := false |})
  /\ ((exists l, l ∈ messages st /\ id <$> deref st l = Some outId) -> st1 = st)
  /\ (forall calls st2, run calls st1 = Some st2 ->
      useMessage outId st2 = (st2, index)
      /\ exists l m, getMessage index st2 = Some l /\ deref st2 l = Some m
                     /\ id m = outId).
Proof.
  intros Hwf st1 index.
  destruct (useMessage_firstSlot outId st Hwf) as (k & extra & Hidx & Hfirst & Hwf1 & Hext).
  fold st1 in Hfirst, Hwf1, Hext. fold index in Hidx.
  split; [|split; [|split]].
  - rewrite Hidx. now apply firstSlot_draft.
  - intros Hnone. apply findById_None in Hnone.
    subst st1 index. unfold useMessage. rewrite Hnone. simpl.
    repeat split.
    eapply draft_intro with (l := length (heap st)); simpl.
    + rewrite length_app. simpl. lia.
    + rewrite length_app. simpl.
      replace (Z.to_nat (Z.of_nat (length (messages st) + 1) - 1))
        with (length (messages st)) by lia.
      rewrite lookup_app_r by lia. now rewrite Nat.sub_diag.
    + rewrite lookup_app_r by lia. now rewrite Nat.sub_diag.
  - intros (l & Hl & Hsome). subst st1. unfold useMessage.
    destruct (findById st outId (messages st)) eqn:Hf; [reflexivity|].
    rewrite findById_None in Hf. exfalso. exact (Hf l Hl Hsome).
  - intros calls st2 Hrun.
    destruct (run_slotIds calls st1 st2 Hwf1 Hrun) as (Hwf2 & e & He).
    assert (Hfirst2 : firstSlot (slotIds st2) outId k).
    { rewrite He. now apply firstSlot_app. }
    split.
    + rewrite Hidx. now apply useMessage_found.
    + rewrite Hidx. now apply firstSlot_draft.
Qed.

(** C9 at work: two conversations, a text typed into the first, then a
    second handle on the first conversation. *)
Lemma useMessage_shared_draft_witness :
  let st := fst (useMessage "bob" (fst (useMessage "alice" emptyStore))) in
  wf st
  /\ forall calls st2,
       run calls (fst (useMessage "alice" st)) = Some st2 ->
       useMessage "alice" st2 = (st2, snd (useMessage "alice" st)).
Proof.
  assert (Hwf : wf (fst (useMessage "bob" (fst (useMessage "alice" emptyStore))))).
  { apply (reachable_wf [CallUseMessage "alice"; CallUseMessage "bob"]). reflexivity. }
  split; [exact Hwf|].
  intros calls st2 Hrun.
  exact (proj1 (proj2 (proj2 (proj2
    (useMessage_shared_draft "alice" _ Hwf))) calls st2 Hrun)).
Defined.

(** C10. Each of [setMessageText], [setMessageFile], [resetMessageFile],
    [setReply] and [resetReply] succeeds on an existing draft, writes its
    own field, keeps [id] and the other fields and leaves [forceSend]
    false whatever it was; [setForceSendMessage] writes [forceSend] and
    nothing else; and no call of the composable other than
    [setForceSendMessage(true)] turns a false [forceSend] into true. *)
Theorem setters_frame (index : Z) (st : Store) (m : Message) :
  draft index st = Some m ->
  (forall t, exists st', setMessageText index t st = Some st'
     /\ draft index st' = Some {| id := id m; text := t; file := file m;
                                  reply := reply m; forceSend := false |})
  /\ (forall f, exists st', setMessageFile index f st = Some st'
     /\ draft index st' = Some {| id := id m; text := text m; file := Some f;
                                  reply := reply m; forceSend := false |})
  /\ (exists st', resetMessageFile index st = Some st'
     /\ draft index st' = Some {| id := id m; text := text m; file := None;
                                  reply := reply m; forceSend := false |})
  /\ (forall r, exists st', setReply index r st = Some st'
     /\ draft index st' = Some {| id := id m; text := text m; file := file m;
                                  reply := Some r; forceSend := false |})
  /\ (exists st', resetReply index st = Some st'
     /\ draft index st' = Some {| id := id m; text := text m; file := file m;
                                  reply := None; forceSend := false |})
  /\ (forall v, exists st', setForceSendMessage index v st = Some st'
     /\ draft index st' = Some {| id := id m; text := text m; file := file m;
                                  reply := reply m; forceSend := v |})
  /\ (forall c st' m', exec c st = Some st' -> draft index st' = Some m' ->
        forceSend m = false -> forceSend m' = true ->
        exists i, c = CallSetForceSendMessage i true).
Proof.
  intros Hd.
  repeat match goal with |- _ /\ _ => split end.
  - intros t. unfold setMessageText. by_assignSlot Hd.
  - intros f. unfold setMessageFile. by_assignSlot Hd.
  - unfold resetMessageFile. by_assignSlot Hd.
  - intros r. unfold setReply. by_assignSlot Hd.
  - unfold resetReply. by_assignSlot Hd.
  - intros v. destruct (setForceSendMessage_same index v st m Hd) as (st' & ? & _ & ?).
    eauto.
  - intros c st' m' He Hd'. eapply exec_forceSend; eauto.
Qed.

(** C10 on a draft that carries a text and is marked for sending. *)
Lemma setters_frame_witness :
  let st := {| heap := [ {| id := "alice"; text := "hello"; file := None;
                            reply := None; forceSend := true |} ];
               messages := [0%nat] |} in
  exists st', resetReply 0 st = Some st'
    /\ draft 0 st' = Some {| id := "alice"; text := "hello"; file := None;
                             reply := None; forceSend := false |}.
Proof.
  intros st.
  exact (proj1 (proj2 (proj2 (proj2 (proj2
    (setters_frame 0 st _ eq_refl)))))).
Defined.

End DraftsFacts.


(* ===================================================================== *)
(** * 5. Facts about the feed handlers                                   *)
(* ===================================================================== *)

Module FeedFacts.

Import Feed.

Lemma loadMoreCount_app (a b : list Effect) :
  loadMoreCount (a ++ b) = (loadMoreCount a + loadMoreCount b)%nat.
Proof. unfold loadMoreCount. now rewrite filter_app, length_app. Qed.

(** One scroll event emits ['loadMore'] once when it is inside the zone
    of 300 pixels and not at all otherwise. *)
Lemma handleScroll_loadMore (ev : option Container) (ref : Z) :
  loadMoreCount (snd (handleScroll ev ref))
  = if inTopZone 300 ev then 1%nat else 0%nat.
Proof.
  destruct ev as [c|]; simpl; [|reflexivity].
  rewrite loadMoreCount_app.
  destruct (scrollTop c <? 300);
    destruct (scrollHeight c - scrollTop c - clientHeight c <? 300); reflexivity.
Qed.

Lemma zoneEvents_cons (threshold : Z) (ev : option Container)
    (rest : list (option Container)) :
  zoneEvents threshold (ev :: rest)
  = ((if inTopZone threshold ev then 1 else 0) + zoneEvents threshold rest)%nat.
Proof.
  unfold zoneEvents. rewrite filter_cons.
  destruct (inTopZone threshold ev); simpl.
  - destruct (decide (true = true)); [reflexivity|congruence].
  - destruct (decide (false = true)); [discriminate|reflexivity].
Qed.

Lemma onEntry_intersecting (entry : IntersectionObserverEntry) :
  onEntry entry
  = map messageVisible (intersectingIds [entry]).
Proof.
  unfold onEntry, intersectingIds. simpl.
  destruct (isIntersecting entry); [|reflexivity].
  destruct (getAttribute (target entry) "data-message-id") as [[|a s]|];
    reflexivity.
Qed.

(** Fifty small scroll events in a row inside the zone: fifty emissions,
    one crossing. *)
Example fifty_events_inside_zone :
  let events := replicate 50 (Some {| scrollTop := 120; scrollHeight := 9000;
                                      clientHeight := 800 |}) in
  loadMoreCount (scrollTrace events 0) = 50%nat
  /\ topCrossings 300 false events = 1%nat.
Proof. vm_compute. auto. Qed.

(** Near the bottom only ['loadMoreDown'] is emitted; an unset container
    emits nothing. *)
Example handleScroll_bottom :
  handleScroll (Some {| scrollTop := 4000; scrollHeight := 5000; clientHeight := 800 |}) 0
  = (4000, [Emitted loadMoreDown; CallEmitVisibleMessages])
  /\ handleScroll None 17 = (17, []).
Proof. split; reflexivity. Qed.

(** Entries that do not intersect, or whose target has no identifier, are
    passed over. *)
Example observerCallback_skips :
  observerCallback
    [ {| isIntersecting := false;
         target := {| attributes := {[ "data-message-id" := "m1" ]} |} |};
      {| isIntersecting := true; target := {| attributes := ∅ |} |};
      {| isIntersecting := true;
         target := {| attributes := {[ "data-message-id" := "" ]} |} |};
      {| isIntersecting := true;
         target := {| attributes := {[ "data-message-id" := "m4" ]} |} |} ]
  = [messageVisible "m4"].
Proof. reflexivity. Qed.

(** ** The claims *)

(** C1, as the claim states it, fails: two scroll events in a row at 100
    and 90 pixels from the top enter the zone once and emit ['loadMore']
    twice. *)
Lemma loadMore_refires_inside_zone :
  let events := [ Some {| scrollTop := 100; scrollHeight := 5000; clientHeight := 800 |};
                  Some {| scrollTop := 90; scrollHeight := 5000; clientHeight := 800 |} ] in
  topCrossings 300 false events = 1%nat
  /\ loadMoreCount (scrollTrace events 0) = 2%nat
  /\ loadMoreCount (scrollTrace events 0) <> topCrossings 300 false events.
Proof. repeat split. vm_compute. discriminate. Qed.

(** C1, amended. [handleScroll] is level-triggered: over any sequence of
    scroll events, ['loadMore'] is emitted once for every event at which
    the container is set and [scrollTop] is below 300, whether or not the
    event before it was inside the zone already. *)
Theorem loadMore_once_per_event_in_zone (events : list (option Container)) (ref : Z) :
  loadMoreCount (scrollTrace events ref) = zoneEvents 300 events.
Proof.
  revert ref. induction events as [|ev rest IH]; intros ref; [reflexivity|].
  simpl. destruct (handleScroll ev ref) as [ref' effects] eqn:E.
  rewrite loadMoreCount_app, IH, zoneEvents_cons.
  pose proof (handleScroll_loadMore ev ref) as H. rewrite E in H. simpl in H.
  now rewrite H.
Qed.

(** C2, as the claim states it, fails: one invocation of the observer
    callback with two intersecting messages emits two events, one for
    each identifier. *)
Lemma observerCallback_one_event_per_id :
  let entry (v : string) :=
    {| isIntersecting := true;
       target := {| attributes := {[ "data-message-id" := v ]} |} |} in
  observerCallback [entry "m1"; entry "m2"]
  = [messageVisible "m1"; messageVisible "m2"]
  /\ length (observerCallback [entry "m1"; entry "m2"]) <> 1%nat.
Proof. split; [reflexivity|]. vm_compute. discriminate. Qed.

(** C2, amended. One invocation of the observer callback emits one
    ['messageVisible'] event for each intersecting entry whose target
    carries a non-empty [data-message-id], in the order of the entries,
    each with that single identifier; entries that do not intersect and
    targets without the attribute emit nothing. *)
Theorem observerCallback_per_entry (entries : list IntersectionObserverEntry) :
  observerCallback entries = map messageVisible (intersectingIds entries)
  /\ length (observerCallback entries) = length (intersectingIds entries).
Proof.
  assert (H : observerCallback entries = map messageVisible (intersectingIds entries)).
  { induction entries as [|entry rest IH]; [reflexivity|].
    simpl. rewrite IH, onEntry_intersecting.
    unfold intersectingIds. simpl.
    destruct (isIntersecting entry); [|reflexivity].
    destruct (getAttribute (target entry) "data-message-id") as [[|a s]|];
      reflexivity. }
  split; [exact H|]. rewrite H. apply length_map.
Qed.

End FeedFacts.


(* ===================================================================== *)
(** * 6. Facts about the windowing engine                                *)
(* ===================================================================== *)

Module WindowingFacts.

Import Windowing.

(** ** The cumulative table *)

Lemma cumulativeFrom_length (acc : Z) (hs : list Z) :
  length (cumulativeFrom acc hs) = S (length hs).
Proof.
  revert acc. induction hs as [|h rest IH]; intros acc; simpl; [reflexivity|].
  now rewrite IH.
Qed.

Lemma cumulativeFrom_nth (acc : Z) (hs : list Z) (i : nat) :
  (i <= length hs)%nat ->
  nth i (cumulativeFrom acc hs) 0 = acc + sumHeights (take i hs).
Proof.
  revert acc i. induction hs as [|h rest IH]; intros acc i Hi; simpl in *.
  - assert (i = 0%nat) as -> by lia. simpl. lia.
  - destruct i as [|i]; simpl; [lia|].
    rewrite IH by lia. lia.
Qed.

Lemma cumulativeFrom_last (acc : Z) (hs : list Z) :
  List.last (cumulativeFrom acc hs) 0 = acc + sumHeights hs.
Proof.
  revert acc. induction hs as [|h rest IH]; intros acc; [simpl; lia|].
  change (cumulativeFrom acc (h :: rest)) with (acc :: cumulativeFrom (acc + h) rest).
  destruct (cumulativeFrom (acc + h) rest) as [|x xs] eqn:E.
  - pose proof (cumulativeFrom_length (acc + h) rest) as H. rewrite E in H. discriminate.
  - change (List.last (acc :: x :: xs) 0) with (List.last (x :: xs) 0).
    rewrite <- E, IH. simpl. lia.
Qed.

Lemma offsetAt_sum (hs : list Z) (i : nat) :
  (i <= length hs)%nat ->
  offsetAt (cumulativeOffsets hs) i = sumHeights (take i hs).
Proof.
  intros Hi. unfold offsetAt, cumulativeOffsets.
  rewrite cumulativeFrom_nth by exact Hi. lia.
Qed.

Lemma sumHeights_app (a b : list Z) :
  sumHeights (a ++ b) = sumHeights a + sumHeights b.
Proof. induction a as [|x a IH]; simpl; [reflexivity|]. rewrite IH. lia. Qed.

Lemma sumHeights_nonneg (hs : list Z) :
  Forall (fun h => 0 <= h) hs -> 0 <= sumHeights hs.
Proof. induction 1; simpl; lia. Qed.

(** The offset of the next item is the offset plus the height. *)
Lemma offsetAt_succ (hs : list Z) (i : nat) :
  (i < length hs)%nat ->
  offsetAt (cumulativeOffsets hs) (S i)
  = offsetAt (cumulativeOffsets hs) i + nth i hs 0.
Proof.
  intros Hi. rewrite !offsetAt_sum by lia.
  destruct (hs !! i) as [h|] eqn:E.
  - rewrite (take_S_r hs i h E), sumHeights_app. simpl.
    rewrite (nth_lookup_Some hs i 0 h E). lia.
  - apply lookup_ge_None in E. lia.
Qed.

(** With heights that are not negative the offsets do not decrease. *)
Lemma offsetAt_mono (hs : list Z) (i j : nat) :
  Forall (fun h => 0 <= h) hs -> (i <= j)%nat -> (j <= length hs)%nat ->
  offsetAt (cumulativeOffsets hs) i <= offsetAt (cumulativeOffsets hs) j.
Proof.
  intros Hpos Hij Hj. rewrite !offsetAt_sum by lia.
  replace j with (i + (j - i))%nat by lia.
  rewrite <- take_take_drop.
  rewrite sumHeights_app.
  assert (0 <= sumHeights (take (j - i) (drop i hs))); [|lia].
  apply sumHeights_nonneg.
  apply Forall_take, Forall_drop. exact Hpos.
Qed.

(** The table of a uniform height. *)
Lemma sumHeights_uniform {T : Type} (h : Z) (items : list T) :
  sumHeights (map (fun _ => h) items) = Z.of_nat (length items) * h.
Proof. induction items as [|x rest IH]; simpl; [lia|]. rewrite IH. lia. Qed.

Lemma offsetAt_uniform {T : Type} (h : Z) (items : list T) (i : nat) :
  (i <= length items)%nat ->
  offsetAt (cumulativeOffsets (map (fun _ => h) items)) i = Z.of_nat i * h.
Proof.
  intros Hi. rewrite offsetAt_sum by (rewrite length_map; lia).
  change (map ?f ?l) with (f <$> l). rewrite <- fmap_take.
  change (?f <$> ?l) with (map f l).
  rewrite sumHeights_uniform, length_take. f_equal. lia.
Qed.

Lemma nth_uniform {T : Type} (h : Z) (items : list T) (i : nat) :
  (i < length items)%nat -> nth i (map (fun _ => h) items) 0 = h.
Proof.
  intros Hi. destruct (lookup_lt_is_Some_2 items i Hi) as [x Hx].
  apply nth_lookup_Some.
  change (map ?f ?l) with (f <$> l). now rewrite list_lookup_fmap, Hx.
Qed.

(** ** The binary search *)

Lemma midpoint_between (lo hi : nat) :
  (lo < hi)%nat -> (lo <= (lo + hi) / 2 < hi)%nat.
Proof.
  intros H. split.
  - apply Nat.div_le_lower_bound; lia.
  - apply Nat.Div0.div_lt_upper_bound; lia.
Qed.

(** The search stays in its range, and an index it returns below [hi]
    satisfies the predicate. *)
Lemma searchFirst_range (fuel : nat) (p : nat -> bool) (lo hi : nat) :
  (lo <= hi)%nat -> (hi - lo <= fuel)%nat ->
  (lo <= searchFirst fuel p lo hi <= hi)%nat
  /\ ((searchFirst fuel p lo hi < hi)%nat -> p (searchFirst fuel p lo hi) = true).
Proof.
  revert lo hi. induction fuel as [|fuel IH]; intros lo hi Hle Hfuel; cbn [searchFirst].
  - split; lia.
  - destruct (Nat.ltb_spec lo hi) as [Hlt|Hge]; [|split; lia].
    pose proof (midpoint_between lo hi Hlt) as Hmid.
    destruct (p ((lo + hi) / 2)%nat) eqn:Ep.
    + destruct (IH lo ((lo + hi) / 2)%nat) as [Hr Hp]; [lia|lia|].
      split; [lia|]. intros _.
      destruct (Nat.eq_dec (searchFirst fuel p lo ((lo + hi) / 2)%nat) ((lo + hi) / 2)%nat)
        as [->|Hne]; [exact Ep|]. apply Hp. lia.
    + destruct (IH (S ((lo + hi) / 2)%nat) hi) as [Hr Hp]; [lia|lia|].
      split; [lia|exact Hp].
Qed.

(** On a predicate that stays true once it is true, no index before the
    result satisfies it. *)
Lemma searchFirst_first (n fuel : nat) (p : nat -> bool) (lo hi : nat) :
  (forall i j, (i <= j < n)%nat -> p i = true -> p j = true) ->
  (lo <= hi <= n)%nat -> (hi - lo <= fuel)%nat ->
  forall i, (lo <= i < searchFirst fuel p lo hi)%nat -> p i = false.
Proof.
  intros Hmono. revert lo hi.
  induction fuel as [|fuel IH]; intros lo hi Hle Hfuel i Hi; cbn [searchFirst] in Hi.
  - lia.
  - destruct (Nat.ltb_spec lo hi) as [Hlt|Hge]; [|lia].
    pose proof (midpoint_between lo hi Hlt) as Hmid.
    destruct (p ((lo + hi) / 2)%nat) eqn:Ep.
    + apply (IH lo ((lo + hi) / 2)%nat); auto; lia.
    + destruct (Nat.le_gt_cases i ((lo + hi) / 2)%nat) as [Hi'|Hi'].
      * destruct (p i) eqn:Epi; [|reflexivity].
        rewrite (Hmono i ((lo + hi) / 2)%nat) in Ep; [discriminate|lia|exact Epi].
      * apply (IH (S ((lo + hi) / 2)%nat) hi); auto; lia.
Qed.

Lemma firstIndex_le (n : nat) (p : nat -> bool) : (firstIndex n p <= n)%nat.
Proof.
  unfold firstIndex. destruct (searchFirst_range n p 0 n); lia.
Qed.

(** What the search returns on such a predicate: the first index that
    satisfies it, the length when none does. *)
Lemma firstIndex_unique (n : nat) (p : nat -> bool) (r : nat) :
  (forall i j, (i <= j < n)%nat -> p i = true -> p j = true) ->
  (r <= n)%nat ->
  (forall i, (i < r)%nat -> p i = false) ->
  ((r < n)%nat -> p r = true) ->
  firstIndex n p = r.
Proof.
  intros Hmono Hr Hbefore Hat. unfold firstIndex.
  destruct (searchFirst_range n p 0 n) as [Hrange Hfound]; [lia|lia|].
  pose proof (searchFirst_first n n p 0 n Hmono) as Hfirst.
  destruct (Nat.lt_total (searchFirst n p 0 n) r) as [Hlt|[Heq|Hgt]]; auto; exfalso.
  - rewrite Hbefore in Hfound by exact Hlt. discriminate Hfound. lia.
  - rewrite (Hfirst ltac:(lia) ltac:(lia) r) in Hat by lia. discriminate Hat. lia.
Qed.

(** ** Windows *)

Lemma expand_range (n sv ev ov : Z) :
  0 <= startIndex (expand n sv ev ov) /\ endIndex (expand n sv ev ov) <= n.
Proof. unfold expand. simpl. lia. Qed.

Lemma expand_bounds (n sv ev ov : Z) :
  0 <= n -> 0 <= ev -> sv <= ev -> 0 <= ov ->
  0 <= startIndex (expand n sv ev ov) <= endIndex (expand n sv ev ov)
  /\ endIndex (expand n sv ev ov) <= n.
Proof. unfold expand. simpl. lia. Qed.

(** Indices found by a search, which stops at the length, and indices
    computed without that cap give the same window. *)
Lemma expand_capped (n a b ov : Z) :
  0 <= ov -> expand n (Z.min n a) (Z.min n b) ov = expand n a b ov.
Proof. intros Hov. unfold expand. f_equal; lia. Qed.

Lemma materialize_length {T : Type} (items : list (Item T))
    (offsetOf : nat -> Z) (heightOfItem : Item T -> Z) (w : Window) :
  0 <= startIndex w -> endIndex w <= Z.of_nat (length items) ->
  length (materialize items offsetOf heightOfItem w)
  = Z.to_nat (endIndex w - startIndex w).
Proof.
  intros Hs He. unfold materialize.
  rewrite length_imap, length_take, length_drop. lia.
Qed.


Lemma materialize_ext {T : Type} (items : list (Item T))
    (offsetOf offsetOf' : nat -> Z) (heightOfItem heightOfItem' : Item T -> Z)
    (w : Window) :
  (forall i, (i < length items)%nat -> offsetOf i = offsetOf' i) ->
  (forall it, it ∈ items -> heightOfItem it = heightOfItem' it) ->
  materialize items offsetOf heightOfItem w
  = materialize items offsetOf' heightOfItem' w.
Proof.
  intros Hoff Hh. unfold materialize. apply imap_ext. intros k it Hk.
  pose proof (lookup_lt_Some _ _ _ Hk) as Hlt.
  rewrite length_take, length_drop in Hlt.
  rewrite lookup_take_lt in Hk by lia. rewrite lookup_drop in Hk.
  rewrite Hoff by lia. rewrite Hh; [reflexivity|].
  eapply list_elem_of_lookup_2; eauto.
Qed.

(** ** The total extent *)

Lemma genericPath_totalExtent {T : Type} (items : list (Item T))
    (heightOfItem : Item T -> Z) (v s ov : Z) :
  totalExtent (genericPath items heightOfItem v s ov)
  = sumHeights (map heightOfItem items).
Proof.
  unfold genericPath.
  destruct (v <=? 0); simpl; unfold cumulativeOffsets;
    rewrite cumulativeFrom_last; lia.
Qed.

Lemma fixedHeightPath_totalExtent {T : Type} (items : list (Item T)) (h v s ov : Z) :
  totalExtent (fixedHeightPath items h v s ov)
  = sumHeights (map (fun _ => h) items).
Proof.
  unfold fixedHeightPath. destruct (h <=? 0).
  - apply genericPath_totalExtent.
  - rewrite sumHeights_uniform. destruct (v <=? 0); reflexivity.
Qed.

Lemma computeWindow_totalExtent {T : Type} (items : list (Item T)) (hm : HeightModel)
    (v s ov : Z) :
  totalExtent (computeWindow items hm v s ov) = sumHeights (map (heightOf hm) items).
Proof.
  destruct hm as [h|lookup fallback]; simpl.
  - apply fixedHeightPath_totalExtent.
  - apply genericPath_totalExtent.
Qed.

(** ** The fast path against the generic path *)

(** On a table of uniform positive height [h], the first index whose
    offset plus height exceeds [x] is [floor (x / h)]. *)
Lemma uniform_start_index {T : Type} (items : list (Item T)) (h x : Z) :
  0 < h -> 0 <= x ->
  Z.of_nat
    (firstIndex (length items)
       (fun i => x <? offsetAt (cumulativeOffsets (map (fun _ => h) items)) i
                      + nth i (map (fun _ => h) items) 0))
  = Z.min (Z.of_nat (length items)) (indexAt h x).
Proof.
  intros Hh Hx. unfold indexAt.
  pose proof (Z.div_mod x h ltac:(lia)) as Hdm.
  pose proof (Z.mod_pos_bound x h Hh) as Hmod.
  assert (Hq : 0 <= x / h) by (apply Z.div_pos; lia).
  rewrite (firstIndex_unique _ _ (Z.to_nat (Z.min (Z.of_nat (length items)) (x / h)))).
  - lia.
  - intros i j Hij Hi. apply Z.ltb_lt in Hi. apply Z.ltb_lt.
    rewrite offsetAt_uniform, nth_uniform in * by lia. nia.
  - lia.
  - intros i Hi. apply Z.ltb_ge.
    rewrite offsetAt_uniform, nth_uniform by lia. nia.
  - intros Hr. apply Z.ltb_lt.
    rewrite offsetAt_uniform, nth_uniform by lia. nia.
Qed.

(** And the first index whose offset has reached [x] comes right after
    the item under the position [x - 1]. *)
Lemma uniform_end_index {T : Type} (items : list (Item T)) (h x : Z) :
  0 < h -> 0 < x ->
  Z.of_nat
    (firstIndex (length items)
       (fun i => x <=? offsetAt (cumulativeOffsets (map (fun _ => h) items)) i))
  = Z.min (Z.of_nat (length items)) (indexAt h (x - 1) + 1).
Proof.
  intros Hh Hx. unfold indexAt.
  pose proof (Z.div_mod (x - 1) h ltac:(lia)) as Hdm.
  pose proof (Z.mod_pos_bound (x - 1) h Hh) as Hmod.
  assert (Hq : 0 <= (x - 1) / h) by (apply Z.div_pos; lia).
  rewrite (firstIndex_unique _ _
             (Z.to_nat (Z.min (Z.of_nat (length items)) ((x - 1) / h + 1)))).
  - lia.
  - intros i j Hij Hi. apply Z.leb_le in Hi. apply Z.leb_le.
    rewrite offsetAt_uniform in * by lia. nia.
  - lia.
  - intros i Hi. apply Z.leb_gt.
    rewrite offsetAt_uniform by lia. nia.
  - intros Hr. apply Z.leb_le.
    rewrite offsetAt_uniform by lia. nia.
Qed.

(** The fast path gives what the generic path gives on the same uniform
    heights, for every height. *)
Lemma fixedHeightPath_genericPath {T : Type} (items : list (Item T)) (h v s ov : Z) :
  fixedHeightPath items h v s ov = genericPath items (fun _ => h) v s ov.
Proof.
  pose proof (fixedHeightPath_totalExtent items h v s ov) as Ht1.
  pose proof (genericPath_totalExtent items (fun _ => h) v s ov) as Ht2.
  unfold fixedHeightPath in *.
  destruct (Z.leb_spec h 0) as [Hh|Hh]; [reflexivity|].
  unfold genericPath in *.
  destruct (Z.leb_spec v 0) as [Hv|Hv]; simpl in *.
  - f_equal. congruence.
  - rewrite uniform_start_index, uniform_end_index by lia.
    rewrite expand_capped by lia.
    f_equal; [|congruence].
    apply materialize_ext; [|reflexivity].
    intros i Hi. rewrite offsetAt_uniform by lia. reflexivity.
Qed.

Lemma genericPath_ext {T : Type} (items : list (Item T))
    (f g : Item T -> Z) (v s ov : Z) :
  (forall it, it ∈ items -> f it = g it) ->
  genericPath items f v s ov = genericPath items g v s ov.
Proof.
  intros Hfg.
  assert (Hmap : map f items = map g items).
  { apply map_ext_in. intros it Hit. apply Hfg. now apply list_elem_of_In. }
  unfold genericPath. rewrite Hmap.
  destruct (v <=? 0); [reflexivity|]. f_equal.
  apply materialize_ext; auto.
Qed.

(** Whatever the height model, [computeWindow] is the generic path on
    the heights the model gives. *)
Lemma computeWindow_generic {T : Type} (items : list (Item T)) (hm : HeightModel)
    (v s ov : Z) :
  computeWindow items hm v s ov = genericPath items (heightOf hm) v s ov.
Proof.
  destruct hm as [h|lookup fallback]; [|reflexivity].
  simpl. apply fixedHeightPath_genericPath.
Qed.

Lemma computeWindow_uniform_lookup {T : Type} (items : list (Item T))
    (lookup : Identifier -> option Z) (fallback h v s ov : Z) :
  (forall it, it ∈ items -> heightOf (PerItemHeight lookup fallback) it = h) ->
  computeWindow items (PerItemHeight lookup fallback) v s ov
  = fixedHeightPath items h v s ov.
Proof.
  intros Hall.
  unfold computeWindow. rewrite fixedHeightPath_genericPath.
  now apply genericPath_ext.
Qed.

(** ** The window stays inside the sequence *)

(** With heights that are not negative, the two tests of step 2 stay true
    once they are true. *)
Lemma start_test_mono (hs : list Z) (s : Z) (i j : nat) :
  Forall (fun h => 0 <= h) hs -> (i <= j < length hs)%nat ->
  (s <? offsetAt (cumulativeOffsets hs) i + nth i hs 0) = true ->
  (s <? offsetAt (cumulativeOffsets hs) j + nth j hs 0) = true.
Proof.
  intros Hpos Hij Hi. apply Z.ltb_lt in Hi. apply Z.ltb_lt.
  rewrite <- offsetAt_succ in * by lia.
  pose proof (offsetAt_mono hs (S i) (S j) Hpos ltac:(lia) ltac:(lia)). lia.
Qed.


Lemma genericPath_search_order (n : nat) (hs : list Z) (s v : Z) :
  length hs = n -> Forall (fun h => 0 <= h) hs -> 0 < v ->
  Nat.le
    (firstIndex n (fun i => s <? offsetAt (cumulativeOffsets hs) i + nth i hs 0))
    (firstIndex n (fun i => s + v <=? offsetAt (cumulativeOffsets hs) i)).
Proof.
  intros Hn Hpos Hv.
  set (p1 := fun i => s <? offsetAt (cumulativeOffsets hs) i + nth i hs 0).
  set (p2 := fun i => s + v <=? offsetAt (cumulativeOffsets hs) i).
  assert (Hmono : forall i j, (i <= j < n)%nat -> p1 i = true -> p1 j = true).
  { intros i j Hij. apply start_test_mono; auto. lia. }
  destruct (Nat.le_gt_cases (firstIndex n p1) (firstIndex n p2)) as [|Hgt]; auto.
  exfalso. pose proof (firstIndex_le n p1) as Hle1.
  destruct (searchFirst_range n p2 0 n) as [_ Hfound]; [lia|lia|].
  fold (firstIndex n p2) in Hfound.
  specialize (Hfound ltac:(lia)).
  pose proof (searchFirst_first n n p1 0 n Hmono ltac:(lia) ltac:(lia)
                (firstIndex n p2) ltac:(unfold firstIndex in *; lia)) as Hnot.
  unfold p1, p2 in *. apply Z.leb_le in Hfound. apply Z.ltb_ge in Hnot.
  rewrite <- offsetAt_succ in Hnot by lia.
  pose proof (offsetAt_mono hs (firstIndex n p2) (S (firstIndex n p2)) Hpos
                ltac:(lia) ltac:(unfold p2; lia)).
  unfold p2 in *. lia.
Qed.

Lemma heights_nonneg_map {T : Type} (items : list (Item T))
    (heightOfItem : Item T -> Z) :
  Forall (fun it => 0 <= heightOfItem it) items ->
  Forall (fun h => 0 <= h) (map heightOfItem items).
Proof.
  intros Hpos. change (map heightOfItem items) with (heightOfItem <$> items).
  apply Forall_fmap. exact Hpos.
Qed.

Lemma genericPath_window_bounds {T : Type} (items : list (Item T))
    (heightOfItem : Item T -> Z) (v s ov : Z) :
  Forall (fun it => 0 <= heightOfItem it) items ->
  0 <= startIndex (window (genericPath items heightOfItem v s ov))
    <= endIndex (window (genericPath items heightOfItem v s ov))
  /\ endIndex (window (genericPath items heightOfItem v s ov))
     <= Z.of_nat (length items).
Proof.
  intros Hpos. unfold genericPath.
  destruct (Z.leb_spec v 0) as [Hv|Hv]; simpl window.
  - simpl. lia.
  - apply expand_bounds; try lia.
    apply inj_le. apply genericPath_search_order; auto.
    + apply length_map.
    + now apply heights_nonneg_map.
Qed.

Lemma fixedHeightPath_window_bounds {T : Type} (items : list (Item T)) (h v s ov : Z) :
  0 <= h ->
  0 <= startIndex (window (fixedHeightPath items h v s ov))
    <= endIndex (window (fixedHeightPath items h v s ov))
  /\ endIndex (window (fixedHeightPath items h v s ov))
     <= Z.of_nat (length items).
Proof.
  intros Hh. rewrite fixedHeightPath_genericPath.
  apply genericPath_window_bounds. apply Forall_forall. intros; exact Hh.
Qed.

(** Start and end are inside [[0, length]] whatever the heights are. *)
Lemma computeWindow_window_range {T : Type} (items : list (Item T)) (hm : HeightModel)
    (v s ov : Z) :
  0 <= startIndex (window (computeWindow items hm v s ov))
  /\ endIndex (window (computeWindow items hm v s ov)) <= Z.of_nat (length items).
Proof.
  rewrite computeWindow_generic. unfold genericPath.
  destruct (v <=? 0); simpl; lia.
Qed.

(** ** What is materialized *)

Lemma computeWindow_length {T : Type} (items : list (Item T)) (hm : HeightModel)
    (v s ov : Z) :
  length (visibleItems (computeWindow items hm v s ov))
  = Z.to_nat (endIndex (window (computeWindow items hm v s ov))
              - startIndex (window (computeWindow items hm v s ov))).
Proof.
  rewrite computeWindow_generic. unfold genericPath.
  destruct (v <=? 0); simpl; [reflexivity|].
  apply materialize_length; simpl; lia.
Qed.



(** ** The engine never throws *)












(** ** Worked windows *)

(** Three items of heights 10, 0 and 25 scrolled to 12 with a viewport of
    20 and one item of overscan: the last item is visible, the one before
    it comes in as overscan, each with the sum of the heights before it. *)
Example window_of_mixed_heights :
  computeWindow (numbered 3)
    (PerItemHeight (fun i => match i with
                             | IdNumber 0 => Some 10
                             | IdNumber 1 => Some 0
                             | _ => None
                             end) 25) 20 12 1
  = {| visibleItems :=
         [ {| index := 1; item := mkItem (IdNumber 1) tt; offset := 10; height := 0 |};
           {| index := 2; item := mkItem (IdNumber 2) tt; offset := 10; height := 25 |} ];
       totalExtent := 35;
       window := {| startIndex := 1; endIndex := 3 |} |}.
Proof. reflexivity. Qed.

(** An empty sequence: nothing visible, no extent. *)
Example window_of_nothing :
  computeWindow (numbered 0) (FixedHeight 80) 800 4000 5
  = {| visibleItems := []; totalExtent := 0;
       window := {| startIndex := 0; endIndex := 0 |} |}.
Proof. reflexivity. Qed.

(** A hundred items of height 80 in a viewport of 800: scrolled to 4010
    the item under the top edge and the one under the bottom edge are both
    partly visible, eleven in all; scrolled far beyond the end the window
    holds the last item. *)
Example window_at_the_edges :
  window (computeWindow (numbered 100) (FixedHeight 80) 800 4010 0)
  = {| startIndex := 50; endIndex := 61 |}
  /\ window (computeWindow (numbered 100) (FixedHeight 80) 800 400000 0)
     = {| startIndex := 99; endIndex := 100 |}.
Proof. split; vm_compute; reflexivity. Qed.

(** ** The claims *)

(** C3. For 1,000 items that all have height 80, viewport height 800,
    overscan 5 and scroll offset 4000, [computeWindow] returns
    [startIndex = 45], [endIndex = 65] and [totalExtent = 80000], under
    the fixed-height model and under a lookup alike: the ten items 50 to
    59 fill the viewport and five more come in on each side. *)
Theorem scenario_window {T : Type} (items : list (Item T)) (hm : HeightModel) :
  length items = 1000%nat ->
  (forall it, it ∈ items -> heightOf hm it = 80) ->
  startIndex (window (computeWindow items hm 800 4000 5)) = 45
  /\ endIndex (window (computeWindow items hm 800 4000 5)) = 65
  /\ totalExtent (computeWindow items hm 800 4000 5) = 80000
  /\ length (visibleItems (computeWindow items hm 800 4000 5)) = 20%nat.
Proof.
  intros Hlen Hall.
  assert (Hfast : computeWindow items hm 800 4000 5
                  = fixedHeightPath items 80 800 4000 5).
  { destruct hm as [h|lookup fallback].
    - destruct items as [|it rest]; [discriminate|].
      specialize (Hall it ltac:(left)). simpl in Hall. now subst h.
    - apply computeWindow_uniform_lookup. exact Hall. }
  assert (Hw : window (computeWindow items hm 800 4000 5)
               = {| startIndex := 45; endIndex := 65 |}).
  { rewrite Hfast. unfold fixedHeightPath. cbn [Z.leb Z.compare].
    rewrite Hlen. reflexivity. }
  rewrite computeWindow_length, Hw.
  split; [reflexivity|]. split; [reflexivity|]. split; [|reflexivity].
  rewrite Hfast. unfold fixedHeightPath. cbn [Z.leb Z.compare].
  rewrite Hlen. reflexivity.
Qed.

(** C3 on the thousand numbered items. *)
Lemma scenario_window_witness :
  length (numbered 1000) = 1000%nat
  /\ startIndex (window (computeWindow (numbered 1000) (FixedHeight 80) 800 4000 5)) = 45
  /\ endIndex (window (computeWindow (numbered 1000) (FixedHeight 80) 800 4000 5)) = 65
  /\ totalExtent (computeWindow (numbered 1000) (FixedHeight 80) 800 4000 5) = 80000
  /\ length (visibleItems (computeWindow (numbered 1000) (FixedHeight 80) 800 4000 5))
     = 20%nat.
Proof.
  split; [vm_compute; reflexivity|].
  apply (scenario_window (numbered 1000) (FixedHeight 80)).
  - vm_compute; reflexivity.
  - intros it _. reflexivity.
Defined.



(** C5. For every item list and height model, the [totalExtent] that
    [computeWindow] returns is the sum of all item heights; it is the same
    for every scroll offset and overscan; and it is 0 for an empty
    sequence. *)
Theorem totalExtent_is_sum_of_heights {T : Type} (items : list (Item T))
    (hm : HeightModel) (v s ov : Z) :
  totalExtent (computeWindow items hm v s ov) = sumHeights (map (heightOf hm) items)
  /\ (forall s' ov', totalExtent (computeWindow items hm v s' ov')
                     = totalExtent (computeWindow items hm v s ov))
  /\ totalExtent (computeWindow (@nil (Item T)) hm v s ov) = 0.
Proof.
  split; [apply computeWindow_totalExtent|]. split.
  - intros s' ov'. now rewrite !computeWindow_totalExtent.
  - now rewrite computeWindow_totalExtent.
Qed.

(** C6. For every item list with heights that are not negative, every
    scroll offset (non-negative or not), every viewport height and every
    overscan, the window of [computeWindow] has
    [0 <= startIndex <= endIndex <= length]. *)
Theorem window_within_bounds {T : Type} (items : list (Item T)) (hm : HeightModel)
    (v s ov : Z) :
  heightsNonNegative hm items ->
  0 <= startIndex (window (computeWindow items hm v s ov))
    <= endIndex (window (computeWindow items hm v s ov))
  /\ endIndex (window (computeWindow items hm v s ov)) <= Z.of_nat (length items).
Proof.
  intros Hpos. destruct hm as [h|lookup fallback]; simpl in *.
  - now apply fixedHeightPath_window_bounds.
  - now apply genericPath_window_bounds.
Qed.

(** C6 on three items of heights 10, 0 and 25, scrolled to 12. *)
Lemma window_within_bounds_witness :
  let hm := PerItemHeight (fun i => match i with
                                    | IdNumber 0 => Some 10
                                    | IdNumber 1 => Some 0
                                    | _ => None
                                    end) 25 in
  heightsNonNegative hm (numbered 3)
  /\ window (computeWindow (numbered 3) hm 20 12 0)
     = {| startIndex := 2; endIndex := 3 |}
  /\ 0 <= startIndex (window (computeWindow (numbered 3) hm 20 12 0))
       <= endIndex (window (computeWindow (numbered 3) hm 20 12 0)).
Proof.
  intros hm.
  assert (Hpos : heightsNonNegative hm (numbered 3)).
  { unfold heightsNonNegative, hm. repeat constructor; simpl; lia. }
  split; [exact Hpos|]. split; [reflexivity|].
  exact (proj1 (window_within_bounds (numbered 3) hm 20 12 0 Hpos)).
Defined.



End WindowingFacts.


(* ===================================================================== *)
(** * 7. More about the draft composable                                 *)
(* ===================================================================== *)

Module DraftsLaws.

Import Drafts DraftsFacts.

Lemma draft_slotId (index : Z) (st : Store) (m : Message) :
  draft index st = Some m ->
  0 <= index /\ slotIds st !! Z.to_nat index = Some (Some (id m)).
Proof.
  intros Hd. apply draft_Some in Hd as (l & Hi & Hl & Hm). split; [exact Hi|].
  rewrite slotIds_lookup, Hl. simpl. unfold deref. now rewrite Hm.
Qed.

Lemma slotId_draft (index : Z) (st : Store) (outId : string) :
  0 <= index -> slotIds st !! Z.to_nat index = Some (Some outId) ->
  exists m, draft index st = Some m /\ id m = outId.
Proof.
  intros Hi Hs. rewrite slotIds_lookup in Hs.
  destruct (messages st !! Z.to_nat index) as [l|] eqn:El; [|discriminate].
  simpl in Hs. unfold deref in Hs.
  destruct (heap st !! l) as [m|] eqn:Em; [|discriminate]. simpl in Hs.
  exists m. split; [|congruence]. eapply draft_intro; eauto.
Qed.

(** The draft behind a handle is there after any later calls, with its
    [id]. *)
Lemma handle_draft_stable (outId : string) (st st2 : Store) (calls : list Call) :
  wf st ->
  run calls (fst (useMessage outId st)) = Some st2 ->
  exists m, draft (snd (useMessage outId st)) st2 = Some m /\ id m = outId.
Proof.
  intros Hwf Hrun.
  destruct (useMessage_firstSlot outId st Hwf) as (k & extra & Hidx & Hfirst & Hwf1 & _).
  destruct (run_slotIds calls _ st2 Hwf1 Hrun) as (_ & e & He).
  rewrite Hidx. apply slotId_draft; [lia|].
  rewrite Nat2Z.id, He. apply lookup_app_l_Some. apply Hfirst.
Qed.

(** A closure whose slot holds a draft does not throw. *)
Lemma exec_succeeds (c : Call) (index : Z) (st : Store) (m : Message) :
  draft index st = Some m -> callIndex c = Some index ->
  exists st', exec c st = Some st'.
Proof.
  intros Hd Hc.
  destruct c; simpl in Hc; try discriminate; injection Hc as ->; simpl;
    try (unfold resetMessage, setMessageText, setMessageFile, resetMessageFile,
           setReply, resetReply;
         match goal with
         | |- exists st', assignSlot ?i ?b ?st = Some st' =>
             destruct (assignSlot_same i b st m Hd) as (st' & H & _); eauto
         end).
  destruct (setForceSendMessage_same index val st m Hd) as (st' & H & _); eauto.
Qed.

(** [useMessage] leaves the store alone or adds one slot with an [id]
    that no slot showed. *)
Lemma useMessage_slotIds (outId : string) (st : Store) :
  wf st ->
  fst (useMessage outId st) = st
  \/ (slotIds (fst (useMessage outId st)) = slotIds st ++ [Some outId]
      /\ Some outId ∉ slotIds st).
Proof.
  intros Hwf. unfold useMessage.
  destruct (findById st outId (messages st)) as [l|] eqn:Hf; simpl; [now left|].
  right. split.
  - unfold slotIds, deref. simpl. rewrite map_app. simpl.
    rewrite (slotIds_heap_app st) by exact Hwf.
    rewrite lookup_app_r by lia. now rewrite Nat.sub_diag.
  - rewrite findById_None in Hf. unfold slotIds.
    change (map ?f ?l) with (f <$> l). rewrite list_elem_of_fmap.
    intros (l & Hl & Hin). apply (Hf l Hin). now rewrite <- Hl.
Qed.

Lemma exec_consistent (c : Call) (st st' : Store) :
  consistent st -> exec c st = Some st' -> consistent st'.
Proof.
  intros [Hwf Hnd] He. split; [now apply (exec_slotIds c st st')|].
  destruct c; simpl in He;
    try (unfold resetMessage, setMessageText, setMessageFile, resetMessageFile,
           setReply, resetReply in He;
         apply assignSlot_slotIds in He as [_ ->]; auto).
  - injection He as <-.
    destruct (useMessage_slotIds outId st Hwf) as [->|[-> Hfresh]]; [exact Hnd|].
    apply NoDup_app. repeat split; auto.
    + intros x Hx Hx'. apply list_elem_of_singleton in Hx'. now subst x.
    + apply NoDup_singleton.
  - apply setForceSendMessage_slotIds in He as [_ ->]; auto.
Qed.

Lemma run_consistent (cs : list Call) (st st' : Store) :
  consistent st -> run cs st = Some st' -> consistent st'.
Proof.
  revert st. induction cs as [|c rest IH]; intros st Hc Hr; simpl in Hr.
  - now injection Hr as <-.
  - destruct (exec c st) as [st1|] eqn:He; [|discriminate]. simpl in Hr.
    eapply IH; [|exact Hr]. eapply exec_consistent; eauto.
Qed.

Lemma emptyStore_consistent : consistent emptyStore.
Proof. split; [constructor|]. apply NoDup_nil_2. Qed.

(** A setter through one handle as seen from another slot. *)
Lemma assignSlot_other (i index : Z) (build : Message -> Message) (st st' : Store)
    (m : Message) :
  assignSlot i build st = Some st' -> i <> index ->
  draft index st = Some m -> draft index st' = Some m.
Proof.
  intros Ha Hne Hd. unfold assignSlot in Ha.
  destruct (draft i st) as [mi|] eqn:Hi; [|discriminate]. simpl in Ha.
  injection Ha as <-.
  apply draft_Some in Hi as (li & Hi0 & _).
  apply draft_Some in Hd as (l & ? & Hl & Hm).
  eapply draft_intro with (l := l); simpl; auto.
  - rewrite list_lookup_insert_ne; auto. lia.
  - rewrite lookup_app_l; auto. eapply lookup_lt_Some; eauto.
Qed.

Lemma setForceSendMessage_other (i index : Z) (val : bool) (st st' : Store)
    (m : Message) :
  NoDup (messages st) ->
  setForceSendMessage i val st = Some st' -> i <> index ->
  draft index st = Some m -> draft index st' = Some m.
Proof.
  intros Hnd Hs Hne Hd. unfold setForceSendMessage in Hs.
  destruct (getMessage i st) as [li|] eqn:Hli; [|discriminate]. simpl in Hs.
  destruct (deref st li) as [mi|] eqn:Hmi; [|discriminate]. simpl in Hs.
  injection Hs as <-.
  apply at_index_Some in Hli as [Hi0 Hli].
  apply draft_Some in Hd as (l & ? & Hl & Hm).
  eapply draft_intro with (l := l); simpl; auto.
  rewrite list_lookup_insert_ne; auto.
  intros ->. pose proof (NoDup_lookup _ _ _ _ Hnd Hli Hl). lia.
Qed.

Lemma assignSlot_twice (index : Z) (b1 b2 : Message -> Message) (st : Store)
    (m : Message) :
  draft index st = Some m ->
  (st1 ← assignSlot index b1 st; st2 ← assignSlot index b2 st1; draft index st2)
  = Some (b2 (b1 m)).
Proof.
  intros Hd.
  destruct (assignSlot_same index b1 st m Hd) as (st1 & H1 & Hd1).
  destruct (assignSlot_same index b2 st1 _ Hd1) as (st2 & H2 & Hd2).
  rewrite H1. simpl. rewrite H2. simpl. exact Hd2.
Qed.

(** ** Properties *)

(** X1. In every store the process can reach, each slot of the list holds
    a draft and no two slots hold drafts with the same [id]: [useMessage]
    pushes only when [find] found nothing, and no closure changes an
    [id]. *)
Theorem one_draft_per_id (cs : list Call) (st : Store) :
  run cs emptyStore = Some st ->
  (forall k, (k < length (messages st))%nat -> is_Some (draft (Z.of_nat k) st))
  /\ (forall i j mi mj,
        draft i st = Some mi -> draft j st = Some mj -> id mi = id mj -> i = j).
Proof.
  intros Hr.
  destruct (run_consistent cs emptyStore st emptyStore_consistent Hr) as [Hwf Hnd].
  split.
  - intros k Hk. destruct (lookup_lt_is_Some_2 _ _ Hk) as [l Hl].
    pose proof (Forall_lookup_1 _ _ _ _ Hwf Hl) as Hlt. simpl in Hlt.
    destruct (lookup_lt_is_Some_2 _ _ Hlt) as [m Hm].
    exists m. eapply draft_intro; eauto; [lia|]. now rewrite Nat2Z.id.
  - intros i j mi mj Hi Hj Hid.
    apply draft_slotId in Hi as [Hi0 Hi]. apply draft_slotId in Hj as [Hj0 Hj].
    rewrite Hid in Hi.
    pose proof (NoDup_lookup _ _ _ _ Hnd Hi Hj). lia.
Qed.

(** X1 after three conversations were opened, one of them twice. *)
Lemma one_draft_per_id_witness :
  let cs := [CallUseMessage "alice"; CallUseMessage "bob"; CallUseMessage "alice";
             CallSetMessageText 1 "hi"; CallUseMessage "carol"] in
  exists st, run cs emptyStore = Some st
    /\ length (messages st) = 3%nat
    /\ forall i j mi mj,
         draft i st = Some mi -> draft j st = Some mj -> id mi = id mj -> i = j.
Proof.
  intros cs. eexists. split; [reflexivity|]. split; [reflexivity|].
  exact (proj2 (one_draft_per_id cs _ eq_refl)).
Defined.

(** X2. The closures of a handle never throw: after [useMessage(outId)],
    and whatever calls anyone makes afterwards, every closure of that
    handle finds its draft and succeeds. *)
Theorem handles_never_dangle (outId : string) (st st2 : Store) (calls : list Call)
    (c : Call) :
  wf st ->
  run calls (fst (useMessage outId st)) = Some st2 ->
  callIndex c = Some (snd (useMessage outId st)) ->
  exists st3, exec c st2 = Some st3.
Proof.
  intros Hwf Hrun Hc.
  destruct (handle_draft_stable outId st st2 calls Hwf Hrun) as (m & Hd & _).
  eapply exec_succeeds; eauto.
Qed.

(** X2 for a handle on "alice" after another conversation was opened and
    edited. *)
Lemma handles_never_dangle_witness :
  exists st3,
    exec (CallSetReply 0 {| Reply.messageId := "m7"; Reply.type := "text";
                            Reply.text := Some "ok"; Reply.url := None;
                            Reply.filename := None |})
         (fst (useMessage "bob" (fst (useMessage "alice" emptyStore))))
    = Some st3.
Proof.
  apply (handles_never_dangle "alice" emptyStore _ [CallUseMessage "bob"]).
  - constructor.
  - reflexivity.
  - reflexivity.
Defined.

(** X3. Conversations do not leak into each other: in a store the process
    keeps consistent, a call that does not go through the handle of a
    draft ([useMessage] for any id, or any closure of another handle)
    leaves that draft exactly as it was. *)
Theorem other_drafts_untouched (c : Call) (index : Z) (st st' : Store) (m : Message) :
  consistent st ->
  exec c st = Some st' ->
  callIndex c <> Some index ->
  draft index st = Some m ->
  draft index st' = Some m.
Proof.
  intros [Hwf Hnd] He Hc Hd.
  assert (Hndm : NoDup (messages st)).
  { unfold slotIds in Hnd. change (map ?f ?l) with (f <$> l) in Hnd.
    now apply NoDup_fmap_1 in Hnd. }
  destruct c; simpl in He, Hc;
    try (unfold resetMessage, setMessageText, setMessageFile, resetMessageFile,
           setReply, resetReply in He;
         eapply assignSlot_other; [exact He|congruence|exact Hd]).
  - injection He as <-. now apply useMessage_draft.
  - eapply setForceSendMessage_other; eauto. congruence.
Qed.

(** X3: marking bob's draft for sending leaves alice's text alone. *)
Lemma other_drafts_untouched_witness :
  let st := {| heap := [ {| id := "alice"; text := "hello"; file := None;
                            reply := None; forceSend := false |};
                         {| id := "bob"; text := ""; file := None;
                            reply := None; forceSend := false |} ];
               messages := [0%nat; 1%nat] |} in
  consistent st
  /\ exists st', setForceSendMessage 1 true st = Some st'
       /\ draft 0 st' = Some {| id := "alice"; text := "hello"; file := None;
                                reply := None; forceSend := false |}.
Proof.
  intros st.
  assert (Hc : consistent st).
  { split.
    - repeat constructor.
    - apply (bool_decide_unpack _). vm_compute. exact I. }
  split; [exact Hc|]. eexists. split; [reflexivity|].
  apply (other_drafts_untouched (CallSetForceSendMessage 1 true) 0 st _ _ Hc eq_refl).
  - discriminate.
  - reflexivity.
Defined.

(** X4. Drafts are never removed or moved: over any calls, the list does
    not get shorter, and a draft found through an index is still found
    through it afterwards, with the same [id]. *)
Theorem drafts_keep_their_slot (calls : list Call) (st st' : Store) :
  wf st ->
  run calls st = Some st' ->
  (length (messages st) <= length (messages st'))%nat
  /\ forall i m, draft i st = Some m ->
       exists m', draft i st' = Some m' /\ id m' = id m.
Proof.
  intros Hwf Hrun.
  destruct (run_slotIds calls st st' Hwf Hrun) as (_ & e & He).
  split.
  - assert (length (slotIds st') = length (slotIds st ++ e)) as Hlen by now rewrite He.
    unfold slotIds in Hlen. rewrite length_app, !length_map in Hlen. lia.
  - intros i m Hd. apply draft_slotId in Hd as [Hi Hs].
    apply slotId_draft; [exact Hi|]. rewrite He. now apply lookup_app_l_Some.
Qed.

(** X4 over a reset and a second conversation. *)
Lemma drafts_keep_their_slot_witness :
  let st := fst (useMessage "alice" emptyStore) in
  exists st', run [CallResetMessage 0; CallUseMessage "bob"] st = Some st'
    /\ exists m', draft 0 st' = Some m' /\ id m' = "alice".
Proof.
  intros st. eexists. split; [reflexivity|].
  apply (proj2 (drafts_keep_their_slot [CallResetMessage 0; CallUseMessage "bob"]
                  st _ ltac:(repeat constructor) eq_refl)
           0 {| id := "alice"; text := ""; file := None; reply := None;
                forceSend := false |}).
  reflexivity.
Defined.

(** X5. A reference taken with [getMessage()] goes stale on the next
    setter: the setter stores a new object in the slot and leaves the old
    one as it was, so the held reference still shows the old draft.
    [setForceSendMessage] writes into the object in the slot, so a held
    reference sees the new [forceSend]. *)
Theorem held_reference (c : Call) (index : Z) (st st' : Store) (l : loc) (m : Message) :
  getMessage index st = Some l -> deref st l = Some m ->
  callIndex c = Some index -> exec c st = Some st' ->
  if writesInPlace c
  then getMessage index st' = Some l
       /\ exists val, c = CallSetForceSendMessage index val
            /\ deref st' l = Some {| id := id m; text := text m; file := file m;
                                     reply := reply m; forceSend := val |}
  else deref st' l = Some m
       /\ getMessage index st' = Some (length (heap st))
       /\ l <> length (heap st).
Proof.
  intros Hl Hm Hc He.
  assert (Hd : draft index st = Some m).
  { unfold draft. rewrite Hl. exact Hm. }
  pose proof (lookup_lt_Some _ _ _ Hm) as Hlt.
  apply at_index_Some in Hl as [Hi Hl].
  destruct c; simpl in Hc; try discriminate; injection Hc as ->; simpl in *;
    try (unfold resetMessage, setMessageText, setMessageFile, resetMessageFile,
           setReply, resetReply, assignSlot in He;
         rewrite Hd in He; simpl in He; injection He as <-;
         unfold deref, getMessage, at_index; simpl;
         destruct (Z.ltb_spec index 0); [lia|];
         split; [rewrite lookup_app_l; auto|];
         split; [apply list_lookup_insert_eq; eapply lookup_lt_Some; eauto|lia]).
  unfold setForceSendMessage, getMessage, at_index in He.
  destruct (Z.ltb_spec index 0); [lia|]. rewrite Hl in He. simpl in He.
  rewrite Hm in He. simpl in He. injection He as <-.
  unfold getMessage, at_index, deref. simpl.
  destruct (Z.ltb_spec index 0); [lia|]. split; [exact Hl|].
  exists val. split; [reflexivity|]. now apply list_lookup_insert_eq.
Qed.

(** X5 for a reference held across [setMessageText]. *)
Lemma held_reference_witness :
  let st := fst (useMessage "alice" emptyStore) in
  exists st', setMessageText 0 "hello" st = Some st'
    /\ deref st' 0%nat = Some {| id := "alice"; text := ""; file := None;
                                 reply := None; forceSend := false |}
    /\ getMessage 0 st' = Some 1%nat.
Proof.
  intros st. eexists. split; [reflexivity|].
  destruct (held_reference (CallSetMessageText 0 "hello") 0 st _ 0%nat _
              eq_refl eq_refl eq_refl eq_refl) as (H1 & H2 & _).
  split; [exact H1|exact H2].
Defined.

(** X6. Edits of different fields commute and the last edit of a field
    wins: text and file, text and reply, file and reply give the same
    draft in either order, and a second [setMessageText] replaces the
    first. *)
Theorem setters_commute (index : Z) (st : Store) (m : Message)
    (t t' : string) (f : UploadedFile.t) (r : Reply.t) :
  draft index st = Some m ->
  ((st1 ← setMessageText index t st; st2 ← setMessageFile index f st1; draft index st2)
   = (st1 ← setMessageFile index f st; st2 ← setMessageText index t st1; draft index st2))
  /\ ((st1 ← setMessageText index t st; st2 ← setReply index r st1; draft index st2)
      = (st1 ← setReply index r st; st2 ← setMessageText index t st1; draft index st2))
  /\ ((st1 ← setMessageFile index f st; st2 ← setReply index r st1; draft index st2)
      = (st1 ← setReply index r st; st2 ← setMessageFile index f st1; draft index st2))
  /\ (st1 ← setMessageText index t st; st2 ← setMessageFile index f st1;
      st3 ← setReply index r st2; draft index st3)
     = Some {| id := id m; text := t; file := Some f; reply := Some r;
               forceSend := false |}
  /\ (st1 ← setMessageText index t st; st2 ← setMessageText index t' st1;
      draft index st2)
     = Some {| id := id m; text := t'; file := file m; reply := reply m;
               forceSend := false |}.
Proof.
  intros Hd. unfold setMessageText, setMessageFile, setReply.
  repeat match goal with |- _ /\ _ => split end;
    try (rewrite !(assignSlot_twice index _ _ st m Hd); reflexivity).
  destruct (assignSlot_same index
              (fun m => {| id := id m; text := t; file := file m; reply := reply m;
                           forceSend := false |}) st m Hd) as (st1 & H1 & Hd1).
  rewrite H1. simpl.
  rewrite (assignSlot_twice index _ _ st1 _ Hd1). reflexivity.
Qed.

(** X6 on a fresh draft. *)
Lemma setters_commute_witness :
  let st := fst (useMessage "alice" emptyStore) in
  (st1 ← setMessageText 0 "a" st; st2 ← setMessageText 0 "b" st1; draft 0 st2)
  = Some {| id := "alice"; text := "b"; file := None; reply := None;
            forceSend := false |}.
Proof.
  intros st.
  exact (proj2 (proj2 (proj2 (proj2
    (setters_commute 0 st _ "a" "b"
       {| UploadedFile.url := ""; UploadedFile.name := ""; UploadedFile.size := 0;
          UploadedFile.type := "" |}
       {| Reply.messageId := ""; Reply.type := ""; Reply.text := None;
          Reply.url := None; Reply.filename := None |}
       eq_refl))))).
Defined.

(** X7. [resetMessage] brings a draft back to what [useMessage] first
    made of it: whatever was done since the handle was taken, after
    [resetMessage] the draft has the handle's [outId], empty text, no file,
    no reply and [forceSend = false]. *)
Theorem resetMessage_restores_initial (outId : string) (st st2 : Store)
    (calls : list Call) :
  wf st ->
  run calls (fst (useMessage outId st)) = Some st2 ->
  exists st3, resetMessage (snd (useMessage outId st)) st2 = Some st3
    /\ draft (snd (useMessage outId st)) st3
       = Some {| id := outId; text := ""; file := None; reply := None;
                 forceSend := false |}.
Proof.
  intros Hwf Hrun.
  destruct (handle_draft_stable outId st st2 calls Hwf Hrun) as (m & Hd & Hid).
  unfold resetMessage.
  destruct (assignSlot_same (snd (useMessage outId st))
              (fun m => {| id := id m; text := ""; file := None; reply := None;
                           forceSend := false |}) st2 m Hd) as (st3 & H3 & Hd3).
  exists st3. split; [exact H3|]. rewrite Hd3, Hid. reflexivity.
Qed.

(** X7 after a text, a forced send and a second conversation. *)
Lemma resetMessage_restores_initial_witness :
  exists st3,
    (st2 ← run [CallSetMessageText 0 "hello"; CallSetForceSendMessage 0 true;
                CallUseMessage "bob"] (fst (useMessage "alice" emptyStore));
     resetMessage 0 st2) = Some st3
    /\ draft 0 st3 = Some {| id := "alice"; text := ""; file := None; reply := None;
                             forceSend := false |}.
Proof.
  destruct (resetMessage_restores_initial "alice" emptyStore _
              [CallSetMessageText 0 "hello"; CallSetForceSendMessage 0 true;
               CallUseMessage "bob"] ltac:(constructor) eq_refl) as (st3 & H3 & Hd3).
  exists st3. split; [exact H3|exact Hd3].
Defined.

End DraftsLaws.


(* ===================================================================== *)
(** * 8. More about the feed handlers                                    *)
(* ===================================================================== *)

Module FeedLaws.

Import Feed.

Lemma loadMoreDownCount_app (a b : list Effect) :
  loadMoreDownCount (a ++ b) = (loadMoreDownCount a + loadMoreDownCount b)%nat.
Proof. unfold loadMoreDownCount. now rewrite filter_app, length_app. Qed.

Lemma emitVisibleMessagesCalls_app (a b : list Effect) :
  emitVisibleMessagesCalls (a ++ b)
  = (emitVisibleMessagesCalls a + emitVisibleMessagesCalls b)%nat.
Proof. unfold emitVisibleMessagesCalls. now rewrite filter_app, length_app. Qed.

Lemma scrollTrace_cons (ev : option Container) (rest : list (option Container))
    (ref : Z) :
  scrollTrace (ev :: rest) ref
  = snd (handleScroll ev ref) ++ scrollTrace rest (fst (handleScroll ev ref)).
Proof. simpl. now destruct (handleScroll ev ref). Qed.

(** The effects of one event do not depend on [scrollTop.value]. *)
Lemma handleScroll_effects_ref (ev : option Container) (ref ref' : Z) :
  snd (handleScroll ev ref) = snd (handleScroll ev ref').
Proof. now destruct ev. Qed.

Lemma handleScroll_members (c : Container) (ref : Z) :
  (Emitted loadMore ∈ snd (handleScroll (Some c) ref) <-> scrollTop c < 300)
  /\ (Emitted loadMoreDown ∈ snd (handleScroll (Some c) ref)
      <-> scrollHeight c - scrollTop c - clientHeight c < 300).
Proof.
  simpl.
  destruct (Z.ltb_spec (scrollTop c) 300);
    destruct (Z.ltb_spec (scrollHeight c - scrollTop c - clientHeight c) 300);
    simpl; split; split; intros H'; try lia;
    repeat (apply elem_of_cons in H' as [H'|H']; try discriminate);
    try (now apply elem_of_nil in H');
    repeat constructor.
Qed.

Lemma onEntry_member (entry : IntersectionObserverEntry) (e : Emit) :
  e ∈ onEntry entry <->
  isIntersecting entry = true
  /\ exists v, getAttribute (target entry) "data-message-id" = Some v
               /\ v <> EmptyString /\ e = messageVisible v.
Proof.
  unfold onEntry.
  destruct (isIntersecting entry).
  - destruct (getAttribute (target entry) "data-message-id") as [[|a s]|]; simpl.
    + split; [intros H; now apply elem_of_nil in H|].
      intros (_ & v & Hv & Hne & _). congruence.
    + split.
      * intros H. apply list_elem_of_singleton in H. subst e.
        split; [reflexivity|]. eexists. repeat split. discriminate.
      * intros (_ & v & Hv & _ & ->). injection Hv as <-. constructor.
    + split; [intros H; now apply elem_of_nil in H|].
      intros (_ & v & Hv & _). discriminate.
  - split; [intros H; now apply elem_of_nil in H|]. intros [H _]. discriminate.
Qed.

Lemma observerCallback_app (a b : list IntersectionObserverEntry) :
  observerCallback (a ++ b) = observerCallback a ++ observerCallback b.
Proof.
  induction a as [|entry rest IH]; simpl; [reflexivity|].
  now rewrite IH, app_assoc.
Qed.

Lemma onEntry_length (entry : IntersectionObserverEntry) :
  (length (onEntry entry) <= 1)%nat.
Proof.
  unfold onEntry. destruct (isIntersecting entry); simpl; [|lia].
  destruct (getAttribute (target entry) "data-message-id") as [[|a s]|]; simpl; lia.
Qed.

(** ** Properties *)

(** X8. The bottom edge is level-triggered like the top edge: over any
    sequence of scroll events, ['loadMoreDown'] is emitted once for every
    event at which the container is set and
    [scrollHeight - scrollTop - clientHeight] is below 300. *)
Theorem loadMoreDown_once_per_event_near_bottom (events : list (option Container))
    (ref : Z) :
  loadMoreDownCount (scrollTrace events ref)
  = length (filter (fun ev => inBottomZone 300 ev = true) events).
Proof.
  revert ref. induction events as [|ev rest IH]; intros ref; [reflexivity|].
  rewrite scrollTrace_cons, loadMoreDownCount_app, IH, filter_cons.
  destruct ev as [c|]; simpl.
  - rewrite loadMoreDownCount_app.
    destruct (scrollTop c <? 300);
      destruct (scrollHeight c - scrollTop c - clientHeight c <? 300); simpl.
    + destruct (decide (true = true)); [reflexivity|congruence].
    + destruct (decide (false = true)); [discriminate|reflexivity].
    + destruct (decide (true = true)); [reflexivity|congruence].
    + destruct (decide (false = true)); [discriminate|reflexivity].
  - destruct (decide (false = true)); [discriminate|reflexivity].
Qed.

(** X9. One scroll event emits both ['loadMore'] and ['loadMoreDown']
    only when the scrollable range [scrollHeight - clientHeight] is below
    600; on a container whose range is below 300 every event with
    [scrollTop] inside the range emits both. *)
Theorem both_signals_need_short_content (c : Container) (ref : Z) :
  (Emitted loadMore ∈ snd (handleScroll (Some c) ref) ->
   Emitted loadMoreDown ∈ snd (handleScroll (Some c) ref) ->
   scrollHeight c - clientHeight c < 600)
  /\ (0 <= scrollTop c <= scrollHeight c - clientHeight c ->
      scrollHeight c - clientHeight c < 300 ->
      Emitted loadMore ∈ snd (handleScroll (Some c) ref)
      /\ Emitted loadMoreDown ∈ snd (handleScroll (Some c) ref)).
Proof.
  destruct (handleScroll_members c ref) as [Htop Hbottom]. split.
  - intros H1 H2. apply Htop in H1. apply Hbottom in H2. lia.
  - intros Hrange Hshort. split; [apply Htop|apply Hbottom]; lia.
Qed.

(** X9 on a feed of 900 pixels in a viewport of 800. *)
Lemma both_signals_need_short_content_witness :
  let c := {| scrollTop := 40; scrollHeight := 900; clientHeight := 800 |} in
  Emitted loadMore ∈ snd (handleScroll (Some c) 0)
  /\ Emitted loadMoreDown ∈ snd (handleScroll (Some c) 0).
Proof.
  intros c.
  apply (proj2 (both_signals_need_short_content c 0)); simpl; lia.
Defined.

(** X10. [emitVisibleMessages()] is called exactly once for every scroll
    event handled with the container set, and an event that finds no
    container has no effect at all. *)
Theorem emitVisibleMessages_once_per_event (events : list (option Container))
    (ref : Z) :
  emitVisibleMessagesCalls (scrollTrace events ref)
  = length (omap (fun ev : option Container => ev) events)
  /\ (Forall (fun ev => ev = None) events -> scrollTrace events ref = []).
Proof.
  split.
  - revert ref. induction events as [|ev rest IH]; intros ref; [reflexivity|].
    rewrite scrollTrace_cons, emitVisibleMessagesCalls_app, IH.
    destruct ev as [c|]; simpl; [|reflexivity].
    rewrite !emitVisibleMessagesCalls_app.
    destruct (scrollTop c <? 300);
      destruct (scrollHeight c - scrollTop c - clientHeight c <? 300); reflexivity.
  - revert ref. induction events as [|ev rest IH]; intros ref Hall; [reflexivity|].
    apply Forall_cons_1 in Hall as [-> Hall]. rewrite scrollTrace_cons. simpl.
    now apply IH.
Qed.

(** X10 with the container unset for the first of two events. *)
Lemma emitVisibleMessages_once_per_event_witness :
  scrollTrace [None; None] 17 = [].
Proof.
  apply (proj2 (emitVisibleMessages_once_per_event [None; None] 17)).
  repeat constructor.
Defined.

(** X11. [handleScroll] writes [scrollTop.value] and never reads it: after
    any sequence of events it holds the [scrollTop] of the last event that
    found the container (it keeps its old value when none did), and the
    signals emitted do not depend on the value it held before. *)
Theorem scrollTop_is_written_not_read (events : list (option Container)) (ref : Z) :
  scrollTopAfter events ref
  = default ref (scrollTop <$> last (omap (fun ev : option Container => ev) events))
  /\ forall ref', scrollTrace events ref' = scrollTrace events ref.
Proof.
  split.
  - revert ref. induction events as [|ev rest IH]; intros ref; [reflexivity|].
    destruct ev as [c|].
    + change (scrollTopAfter (Some c :: rest) ref) with (scrollTopAfter rest (scrollTop c)).
      change (omap (fun ev : option Container => ev) (Some c :: rest))
        with (c :: omap (fun ev : option Container => ev) rest).
      rewrite IH, last_cons.
      destruct (last (omap (fun ev : option Container => ev) rest)); reflexivity.
    + apply IH.
  - revert ref. induction events as [|ev rest IH]; intros ref ref'; [reflexivity|].
    rewrite !scrollTrace_cons, (handleScroll_effects_ref ev ref' ref). f_equal.
    apply IH.
Qed.

(** X12. What one callback invocation emits, by membership: an event is
    emitted exactly when it is [messageVisible v] for the non-empty
    [data-message-id] [v] of some intersecting entry of the batch; the
    callback emits neither ['loadMore'] nor ['loadMoreDown']. *)
Theorem observerCallback_emits (entries : list IntersectionObserverEntry) (e : Emit) :
  (e ∈ observerCallback entries <->
   exists entry v,
     entry ∈ entries /\ isIntersecting entry = true
     /\ getAttribute (target entry) "data-message-id" = Some v
     /\ v <> EmptyString /\ e = messageVisible v)
  /\ (loadMore ∉ observerCallback entries)
  /\ (loadMoreDown ∉ observerCallback entries).
Proof.
  assert (H : forall e', e' ∈ observerCallback entries <->
            exists entry v,
              entry ∈ entries /\ isIntersecting entry = true
              /\ getAttribute (target entry) "data-message-id" = Some v
              /\ v <> EmptyString /\ e' = messageVisible v).
  { intros e'. induction entries as [|entry rest IH]; simpl.
    - split; [intros H; now apply elem_of_nil in H|].
      intros (entry & v & Hin & _). now apply elem_of_nil in Hin.
    - rewrite elem_of_app, onEntry_member, IH. split.
      + intros [(Hi & v & Hv & Hne & ->)|(en & v & Hin & Hrest)].
        * exists entry, v. repeat split; auto. left.
        * exists en, v. split; [now right|exact Hrest].
      + intros (en & v & Hin & Hi & Hv & Hne & ->).
        apply elem_of_cons in Hin as [->|Hin].
        * left. split; [exact Hi|]. exists v. auto.
        * right. exists en, v. auto. }
  split; [apply H|]. split; intros Hin; apply H in Hin as (? & ? & _ & _ & _ & _ & Hd);
    discriminate.
Qed.

(** X13. Invocations compose and nothing is merged: a batch delivered in
    two invocations emits what the whole batch emits in one, in the same
    order, with no event dropped or merged across the two; and an
    invocation never emits more events than it has entries. *)
Theorem observerCallback_composes (a b : list IntersectionObserverEntry) :
  observerCallback (a ++ b) = observerCallback a ++ observerCallback b
  /\ (length (observerCallback a) <= length a)%nat.
Proof.
  split; [apply observerCallback_app|].
  induction a as [|entry rest IH]; simpl; [lia|].
  rewrite length_app. pose proof (onEntry_length entry). lia.
Qed.

End FeedLaws.
